(** * Tag resolver ([js/tag-i18n.js]): a shallow embedding and its properties

    The module keeps one process-wide tag table together with two lookup
    indexes, and answers three queries against them: [normalizeTag],
    [translateTag] and [getAllTags].  The development below follows the
    source function by function.

    - JavaScript values are the inductive type [value].
    - A plain object is the list of its own enumerable properties in the
      order in which they were created; [Object_keys] computes the order in
      which the language enumerates them.
    - The two [Map] indexes are [gmap string string].
    - The module-level [let] variables are the fields of the record [state];
      every function that reads or writes them passes the state explicitly.
    - A thrown [TypeError] is the result [None].
    - [String.prototype.trim] and [String.prototype.toLowerCase] belong to
      the host, not to the module; they are the two fields of the class
      [StringOps], and every general statement holds for any instance.  *)

From Stdlib Require Import Ascii String SpecFloat.
From stdpp Require Import base option list sorting strings gmap.

Local Open Scope string_scope.

Set Warnings "-register-all".

(** ** Values *)

(** A number is an IEEE 754 double; the module only ever asks for its type
    and its truthiness. *)
Inductive value : Type :=
  | VUndefined
  | VNull
  | VBool (b : bool)
  | VNum (x : spec_float)
  | VStr (s : string)
  | VArr (items : list value)
  | VObj (props : list (string * value))
  | VFunction.

(** The own enumerable properties of a plain object, in creation order. *)
Abbreviation object := (list (string * value)).

Inductive js_type : Type :=
  | TUndefined | TObject | TBoolean | TNumber | TString | TFunction.

Global Instance js_type_eq_dec : EqDecision js_type.
Proof. solve_decision. Defined.

Definition typeof (v : value) : js_type :=
  match v with
  | VUndefined => TUndefined
  | VNull => TObject
  | VBool _ => TBoolean
  | VNum _ => TNumber
  | VStr _ => TString
  | VArr _ => TObject
  | VObj _ => TObject
  | VFunction => TFunction
  end.

Definition isArray (v : value) : bool :=
  match v with VArr _ => true | _ => false end.

Definition is_null (v : value) : bool :=
  match v with VNull => true | _ => false end.

(** ToBoolean. *)
Definition truthy (v : value) : bool :=
  match v with
  | VUndefined | VNull => false
  | VBool b => b
  | VNum (S754_zero _) | VNum S754_nan => false
  | VNum _ => true
  | VStr s => negb (bool_decide (s = ""))
  | VArr _ | VObj _ | VFunction => true
  end.

(** [v === s] for a string literal [s]. *)
Definition strict_eq_string (v : value) (s : string) : bool :=
  match v with VStr s' => bool_decide (s' = s) | _ => false end.

(** Every object node of a value has pairwise distinct own keys. *)
Fixpoint wf_value (v : value) : bool :=
  match v with
  | VArr items =>
      (fix all (l : list value) : bool :=
         match l with [] => true | x :: l => wf_value x && all l end) items
  | VObj props =>
      bool_decide (NoDup props.*1)
      && (fix all (l : object) : bool :=
            match l with [] => true | p :: l => wf_value p.2 && all l end) props
  | _ => true
  end.

(** ** Property access *)

Fixpoint GetOwnProperty (props : object) (k : string) : option value :=
  match props with
  | [] => None
  | p :: rest => if decide (p.1 = k) then Some p.2 else GetOwnProperty rest k
  end.

(** The methods every plain object inherits from [Object.prototype]. *)
Definition object_prototype_methods : list string :=
  [ "constructor"; "hasOwnProperty"; "isPrototypeOf"; "propertyIsEnumerable";
    "toLocaleString"; "toString"; "valueOf";
    "__defineGetter__"; "__defineSetter__"; "__lookupGetter__";
    "__lookupSetter__" ].

(** What a property read finds on [Object.prototype]: [__proto__] yields the
    prototype object itself, which has no own enumerable property. *)
Definition GetInherited (k : string) : value :=
  if decide (k = "__proto__") then VObj []
  else if decide (k ∈ object_prototype_methods) then VFunction
  else VUndefined.

(** [obj[k]] for a plain object: own property first, then the prototype. *)
Definition Get (props : object) (k : string) : value :=
  default (GetInherited k) (GetOwnProperty props k).

(** [v[k]] for an arbitrary value; [None] is the [TypeError] of reading a
    property of [undefined] or [null].  For values other than plain objects
    the result is exact for every name that no built-in prototype defines,
    which covers the names this module reads from an entry
    ([en], [zh], [aliases]). *)
Definition GetV (v : value) (k : string) : option value :=
  match v with
  | VUndefined | VNull => None
  | VObj props => Some (Get props k)
  | _ => Some VUndefined
  end.

(** ** Enumeration order of own keys *)

Definition digit_value (a : ascii) : option N :=
  let n := N_of_ascii a in
  if decide (48 ≤ n ≤ 57)%N then Some (n - 48)%N else None.

Fixpoint parse_decimal (acc : N) (s : string) : option N :=
  match s with
  | EmptyString => Some acc
  | String a rest =>
      match digit_value a with
      | Some d => parse_decimal (10 * acc + d)%N rest
      | None => None
      end
  end.

(** A key is an array index when it is the canonical decimal form of an
    integer between 0 and 2^32 - 2. *)
Definition array_index (k : string) : option N :=
  match k with
  | EmptyString => None
  | String a rest =>
      if decide (a = "0"%char ∧ rest ≠ EmptyString) then None
      else
        match parse_decimal 0 k with
        | Some n => if decide (n ≤ 4294967294)%N then Some n else None
        | None => None
        end
  end.

Definition index_le (a b : N * (string * value)) : Prop := (a.1 ≤ b.1)%N.

Global Instance index_le_dec : RelDecision index_le.
Proof. intros a b. unfold index_le. apply _. Defined.

Definition indexed_properties (props : object) : list (N * (string * value)) :=
  omap (λ p, n ← array_index p.1; Some (n, p)) props.

Definition named_properties (props : object) : object :=
  filter (λ p, array_index p.1 = None) props.

(** OrdinaryOwnPropertyKeys: array indexes in ascending numeric order, then
    the other string keys in creation order. *)
Definition ordered_properties (props : object) : object :=
  (snd <$> merge_sort index_le (indexed_properties props))
  ++ named_properties props.

Definition Object_keys (props : object) : list string :=
  (ordered_properties props).*1.

(** ** Host string operations *)

Class StringOps : Type := {
  trim : string → string;
  toLowerCase : string → string
}.

(** An instance that agrees with the host on strings of 7-bit characters:
    the white space of [trim] below 128 is TAB, LF, VT, FF, CR and SPACE, and
    [toLowerCase] maps [A]-[Z] to [a]-[z]. *)
Module Ascii7.

Definition is_space (a : ascii) : bool :=
  let n := N_of_ascii a in
  bool_decide (9 ≤ n ≤ 13)%N || bool_decide (n = 32)%N.

Definition lower (a : ascii) : ascii :=
  let n := N_of_ascii a in
  if decide (65 ≤ n ≤ 90)%N then ascii_of_N (n + 32) else a.

Fixpoint trimStart (s : string) : string :=
  match s with
  | EmptyString => EmptyString
  | String a rest => if is_space a then trimStart rest else s
  end.

Definition trimEnd (s : string) : string :=
  String.rev (trimStart (String.rev s)).

Definition trim7 (s : string) : string := trimEnd (trimStart s).

Fixpoint lower7 (s : string) : string :=
  match s with
  | EmptyString => EmptyString
  | String a rest => String (lower a) (lower7 rest)
  end.

Definition ops : StringOps := {| trim := trim7; toLowerCase := lower7 |}.

End Ascii7.

(** ** Module state *)

(** The promise stored in [browserLoadPromise]: still in flight, or settled. *)
Inductive promise : Type := Pending | Settled.

Record state : Type := State {
  tagTable : option object;
  aliasToCanonical : option (gmap string string);
  foldedCanonicalToCanonical : option (gmap string string);
  browserLoadPromise : option promise
}.

Definition initial_state : state :=
  {| tagTable := None; aliasToCanonical := None;
     foldedCanonicalToCanonical := None; browserLoadPromise := None |}.

Definition set_tagTable (t : object) (st : state) : state :=
  {| tagTable := Some t;
     aliasToCanonical := aliasToCanonical st;
     foldedCanonicalToCanonical := foldedCanonicalToCanonical st;
     browserLoadPromise := browserLoadPromise st |}.

Definition set_indexes (a c : gmap string string) (st : state) : state :=
  {| tagTable := tagTable st;
     aliasToCanonical := Some a;
     foldedCanonicalToCanonical := Some c;
     browserLoadPromise := browserLoadPromise st |}.

Definition set_browserLoadPromise (p : promise) (st : state) : state :=
  {| tagTable := tagTable st;
     aliasToCanonical := aliasToCanonical st;
     foldedCanonicalToCanonical := foldedCanonicalToCanonical st;
     browserLoadPromise := Some p |}.

(** Where the script runs: with a CommonJS [module] object, or as a plain
    browser script. *)
Inductive platform : Type := CommonJS | Browser.

(** What the host answers during one load attempt: the value of
    [require('../i18n/tags.json')] ([None] when it throws), and whether
    [fetch] is a function. *)
Record host : Type := Host {
  required : option value;
  fetch_is_function : bool
}.

(** ** The module *)

Section Resolver.

Context `{StringOps}.

Definition isPlainObject (v : value) : bool :=
  negb (is_null v) && bool_decide (typeof v = TObject) && negb (isArray v).

Definition foldTagKey (tag : string) : string := toLowerCase (trim tag).

(** Body of the inner loop of [buildIndexes] for one alias. *)
Definition register_alias (canonical : string)
    (aliasMap : gmap string string) (alias : value) : gmap string string :=
  match alias with
  | VStr a =>
      let key := foldTagKey a in
      if decide (key = "") then aliasMap
      else
        match aliasMap !! key with
        | Some _ => aliasMap
        | None => <[key := canonical]> aliasMap
        end
  | _ => aliasMap
  end.

(** [entry && Array.isArray(entry.aliases) ? entry.aliases : []] *)
Definition aliases_of (entry : value) : option (list value) :=
  if truthy entry then
    a ← GetV entry "aliases";
    Some (match a with VArr items => items | _ => [] end)
  else Some [].

(** Body of the outer loop of [buildIndexes] for one canonical key. *)
Definition index_entry (table : object)
    (maps : gmap string string * gmap string string) (canonical : string)
    : option (gmap string string * gmap string string) :=
  let canonicalMap := <[foldTagKey canonical := canonical]> maps.2 in
  aliases ← aliases_of (Get table canonical);
  Some (foldl (register_alias canonical) maps.1 aliases, canonicalMap).

Fixpoint index_loop (table : object)
    (maps : gmap string string * gmap string string) (keys : list string)
    : option (gmap string string * gmap string string) :=
  match keys with
  | [] => Some maps
  | canonical :: keys =>
      maps' ← index_entry table maps canonical;
      index_loop table maps' keys
  end.

(** [None] when the loops throw; the two assignments come last, so the state
    is then untouched. *)
Definition buildIndexes (table : object) (st : state) : option state :=
  maps ← index_loop table (∅, ∅) (Object_keys table);
  Some (set_indexes maps.1 maps.2 st).

(** The three tests of the validation loop of [setTagTable] on one entry. *)
Definition entry_shape_ok (entry : value) : bool :=
  isPlainObject entry
  && match entry with
     | VObj e =>
         bool_decide (typeof (Get e "en") = TString)
         && bool_decide (typeof (Get e "zh") = TString)
     | _ => false
     end.

(** An exception raised by [buildIndexes] would leave [tagTable] assigned and
    travel to the caller, which swallows it. *)
Definition setTagTable (table : value) (st : state) : state :=
  if negb (isPlainObject table) then st
  else
    match table with
    | VObj props =>
        let keys := Object_keys props in
        if decide (length keys = 0) then st
        else if forallb (λ key, entry_shape_ok (Get props key)) keys then
          let st1 := set_tagTable props st in
          default st1 (buildIndexes props st1)
        else st
    | _ => st
    end.

Definition maybeLoadTagTable (p : platform) (h : host) (st : state) : state :=
  match tagTable st with
  | Some _ => st
  | None =>
      match p with
      | CommonJS =>
          match required h with
          | Some table => setTagTable table st
          | None => st
          end
      | Browser =>
          match browserLoadPromise st with
          | Some _ => st
          | None =>
              if negb (fetch_is_function h) then st
              else set_browserLoadPromise Pending st
          end
      end
  end.

(** The continuation of the fetch started by [maybeLoadTagTable].  The
    outcome is [None] when the request or the parsing of its body fails,
    [Some VNull] for a response that is not OK, and the parsed body
    otherwise. *)
Definition fetch_settled (outcome : option value) (st : state) : state :=
  set_browserLoadPromise Settled
    match outcome with
    | Some data => if truthy data then setTagTable data st else st
    | None => st
    end.

(** [a || b] where [a] is the result of [Map.prototype.get]. *)
Definition or_else (a : option string) (b : string) : string :=
  match a with
  | Some s => if decide (s = "") then b else s
  | None => b
  end.

Definition normalizeTag (p : platform) (h : host) (tag : value) (st : state)
    : string * state :=
  match tag with
  | VStr s =>
      if decide (s = "") then ("", st)
      else
        let st := maybeLoadTagTable p h st in
        match aliasToCanonical st, foldedCanonicalToCanonical st with
        | Some aliasMap, Some canonicalMap =>
            let folded := foldTagKey s in
            if decide (folded = "") then ("", st)
            else
              (or_else (aliasMap !! folded)
                 (or_else (canonicalMap !! folded) s), st)
        | _, _ => (s, st)
        end
  | _ => ("", st)
  end.

(** The default value of the parameter, then [lang === 'zh' ? 'zh' : 'en']. *)
Definition normalizedLang (lang : value) : string :=
  let lang := match lang with VUndefined => VStr "en" | _ => lang end in
  if strict_eq_string lang "zh" then "zh" else "en".

Definition translateTag (p : platform) (h : host) (tag lang : value)
    (st : state) : option string * state :=
  match tag with
  | VStr s =>
      if decide (s = "") then (Some "", st)
      else
        let st := maybeLoadTagTable p h st in
        match tagTable st with
        | None => (Some s, st)
        | Some table =>
            let '(canonical, st) := normalizeTag p h tag st in
            let entry :=
              if decide (canonical = "") then VStr canonical
              else Get table canonical in
            if negb (truthy entry) then (Some s, st)
            else
              (translated ← GetV entry (normalizedLang lang);
               Some (match translated with
                     | VStr t => if decide (t = "") then s else t
                     | _ => s
                     end), st)
        end
  | _ => (Some "", st)
  end.

Definition tag_record (key : string) (label : value) : value :=
  VObj [("key", VStr key); ("label", label)].

Definition getAllTags (p : platform) (h : host) (lang : value) (st : state)
    : option value * state :=
  let st := maybeLoadTagTable p h st in
  match tagTable st with
  | None => (Some (VArr []), st)
  | Some table =>
      (VArr <$> mapM (λ key, label ← GetV (Get table key) (normalizedLang lang);
                             Some (tag_record key label))
                  (Object_keys table), st)
  end.

(** ** Runs of the module *)

Inductive event : Type :=
  | CallNormalizeTag (h : host) (tag : value)
  | CallTranslateTag (h : host) (tag lang : value)
  | CallGetAllTags (h : host) (lang : value)
  | FetchSettles (outcome : option value).

(** Evaluating the script: the last statement is a first load attempt. *)
Definition module_init (p : platform) (h : host) : state :=
  maybeLoadTagTable p h initial_state.

Definition wf_host (h : host) : bool :=
  match required h with Some v => wf_value v | None => true end.

Definition wf_outcome (o : option value) : bool :=
  match o with Some v => wf_value v | None => true end.

(** One event; a fetch can settle only while its promise is pending. *)
Definition step (p : platform) (ev : event) (st : state) : option state :=
  match ev with
  | CallNormalizeTag h tag =>
      if wf_host h then Some (normalizeTag p h tag st).2 else None
  | CallTranslateTag h tag lang =>
      if wf_host h then Some (translateTag p h tag lang st).2 else None
  | CallGetAllTags h lang =>
      if wf_host h then Some (getAllTags p h lang st).2 else None
  | FetchSettles outcome =>
      match browserLoadPromise st with
      | Some Pending =>
          if wf_outcome outcome then Some (fetch_settled outcome st) else None
      | _ => None
      end
  end.

Fixpoint run (p : platform) (evs : list event) (st : state) : option state :=
  match evs with
  | [] => Some st
  | ev :: evs => st' ← step p ev st; run p evs st'
  end.

Definition reachable (p : platform) (st : state) : Prop :=
  ∃ h evs, wf_host h = true ∧ run p evs (module_init p h) = Some st.

(** ** Reading the indexes off the table

    The definitions below do not mirror code: they say, in terms of the table
    alone, which registrations the loops of [buildIndexes] attempt and which
    of them an index ends up holding. *)

(** The registrations attempted for one entry, in order: one per alias that
    is a string with a non-empty fold. *)
Definition alias_keys (canonical : string) (aliases : list value)
    : list (string * string) :=
  aliases ≫= λ alias,
    match alias with
    | VStr a =>
        if decide (foldTagKey a = "") then [] else [(foldTagKey a, canonical)]
    | _ => []
    end.

Definition entry_aliases (entry : value) : list value :=
  default [] (aliases_of entry).

(** All attempted registrations, canonical keys in the given order. *)
Definition alias_registrations (table : object) (keys : list string)
    : list (string * string) :=
  keys ≫= λ canonical, alias_keys canonical (entry_aliases (Get table canonical)).

(** The first pair of [l] whose first component is [f]. *)
Fixpoint first_match (f : string) (l : list (string * string)) : option string :=
  match l with
  | [] => None
  | p :: l => if decide (p.1 = f) then Some p.2 else first_match f l
  end.

(** The last key of [keys] whose fold is [f]. *)
Fixpoint last_folded (f : string) (keys : list string) : option string :=
  match keys with
  | [] => None
  | k :: keys =>
      match last_folded f keys with
      | Some k' => Some k'
      | None => if decide (foldTagKey k = f) then Some k else None
      end
  end.

(** ** The aliases a table declares

    Stated on the data alone, without any function of the module: an entry
    declares the items of its own [aliases] property when that property is
    an array, and nothing otherwise. *)

Definition declared_aliases (entry : value) : list value :=
  match entry with
  | VObj e =>
      match GetOwnProperty e "aliases" with
      | Some (VArr items) => items
      | _ => []
      end
  | _ => []
  end.

(** One pair (fold, canonical key) per declared alias that is a string with
    a non-empty fold, canonical keys in the given order and the aliases of
    one entry in the order of its array. *)
Definition declared_registrations (table : object) (keys : list string)
    : list (string * string) :=
  keys ≫= λ canonical,
    alias_keys canonical (declared_aliases (Get table canonical)).

(** ** The validation policy, in its own words

    A candidate is rejected when the root value is not a plain mapping from
    keys to objects, when it has no key, or when some entry lacks a
    string-typed [en] or [zh] field. *)

Definition is_key_to_object_mapping (v : value) : bool :=
  match v with
  | VObj props => forallb (λ p, isPlainObject p.2) props
  | _ => false
  end.

Definition has_zero_keys (v : value) : bool :=
  match v with VObj [] => true | _ => false end.

Definition lacks_labels (entry : value) : bool :=
  match entry with
  | VObj e =>
      negb (bool_decide (typeof (Get e "en") = TString)
            && bool_decide (typeof (Get e "zh") = TString))
  | _ => true
  end.

Definition some_entry_lacks_labels (v : value) : bool :=
  match v with
  | VObj props => existsb (λ p, lacks_labels p.2) props
  | _ => false
  end.

Definition policy_rejects (v : value) : bool :=
  negb (is_key_to_object_mapping v)
  || has_zero_keys v
  || some_entry_lacks_labels v.

(** ** Loaded states *)

(** The indexes held by [st] are the ones [buildIndexes] computes for [t]. *)
Definition indexes_of (t : object) (st : state) : Prop :=
  ∃ maps,
    index_loop t (∅, ∅) (Object_keys t) = Some maps
    ∧ aliasToCanonical st = Some maps.1
    ∧ foldedCanonicalToCanonical st = Some maps.2.

(** [st'] is [st] with the table [t] installed. *)
Definition installed (t : object) (st st' : state) : Prop :=
  tagTable st' = Some t
  ∧ indexes_of t st'
  ∧ browserLoadPromise st' = browserLoadPromise st.

Definition valid_table (t : object) : Prop :=
  NoDup t.*1 ∧ t ≠ [] ∧ Forall (λ p, entry_shape_ok p.2 = true) t.

(** What every state of a run satisfies. *)
Definition state_inv (p : platform) (st : state) : Prop :=
  match tagTable st with
  | Some t =>
      valid_table t ∧ indexes_of t st ∧ browserLoadPromise st ≠ Some Pending
  | None =>
      aliasToCanonical st = None ∧ foldedCanonicalToCanonical st = None
  end
  ∧ (p = CommonJS → browserLoadPromise st = None).

(** ** The queries, as they are described

    Each description takes as a parameter the one point on which the wording
    and the code part ways, so that both readings can be stated. *)

(** A tag is a non-empty string. *)
Definition is_tag (tag : value) : bool :=
  match tag with VStr s => negb (bool_decide (s = "")) | _ => false end.

Definition available_indexes (st : state)
    : option (gmap string string * gmap string string) :=
  match aliasToCanonical st, foldedCanonicalToCanonical st with
  | Some a, Some c => Some (a, c)
  | _, _ => None
  end.

(** The alias-index match, else the fold-index match, else the input. *)
Definition pick_match (a c : gmap string string) (folded s : string) : string :=
  match a !! folded with
  | Some k => k
  | None => match c !! folded with Some k => k | None => s end
  end.

Definition nonempty (o : option string) : option string :=
  match o with
  | Some EmptyString => None
  | _ => o
  end.

(** The same, where a match that is the empty string does not count. *)
Definition pick_nonempty_match (a c : gmap string string) (folded s : string)
    : string :=
  match nonempty (a !! folded) with
  | Some k => k
  | None => match nonempty (c !! folded) with Some k => k | None => s end
  end.

Definition normalizeTag_described
    (pick : gmap string string → gmap string string → string → string → string)
    (tag : value) (indexes : option (gmap string string * gmap string string))
    : string :=
  match tag with
  | VStr s =>
      if decide (s = "") then ""
      else
        match indexes with
        | None => s
        | Some (a, c) =>
            if decide (foldTagKey s = "") then ""
            else pick a c (foldTagKey s) s
        end
  | _ => ""
  end.

(** ['zh'] when [lang === 'zh'], ['en'] for anything else. *)
Definition lang_field (lang : value) : string :=
  if strict_eq_string lang "zh" then "zh" else "en".

(** The label of an entry, when the field is a non-empty string. *)
Definition label_of (entry : value) (field : string) : option string :=
  match entry with
  | VObj e =>
      match Get e field with
      | VStr t => if decide (t = "") then None else Some t
      | _ => None
      end
  | _ => None
  end.

(** The entry of the table under a canonical key. *)
Definition entry_for (t : object) (canonical : string) : option value :=
  GetOwnProperty t canonical.

(** The same, where the empty string is the key of no entry. *)
Definition entry_for_nonempty (t : object) (canonical : string) : option value :=
  if decide (canonical = "") then None else GetOwnProperty t canonical.

Definition translateTag_described (lookup : object → string → option value)
    (tag lang : value) (table : option object) (canonical : string) : string :=
  match tag with
  | VStr s =>
      if decide (s = "") then ""
      else
        match table with
        | None => s
        | Some t =>
            match lookup t canonical with
            | None => s
            | Some entry => default s (label_of entry (lang_field lang))
            end
        end
  | _ => ""
  end.

(** The field of an entry as it stands, [undefined] when there is none. *)
Definition entry_field (entry : value) (field : string) : value :=
  match entry with VObj e => Get e field | _ => VUndefined end.

(** One record per property of the table, in the order [order] gives. *)
Definition getAllTags_described (order : object → object) (lang : value)
    (table : option object) : value :=
  match table with
  | None => VArr []
  | Some t =>
      VArr ((λ p, tag_record p.1 (entry_field p.2 (lang_field lang)))
              <$> order t)
  end.

(** Creation order, as it is. *)
Definition insertion_order (t : object) : object := t.

(** ** Matching a string against the table *)

(** The aliases of an entry that are strings. *)
Definition alias_strings (entry : value) : list string :=
  omap (λ alias, match alias with VStr a => Some a | _ => None end)
    (entry_aliases entry).

(** [s] folds to the fold of some canonical key. *)
Definition matches_canonical (t : object) (s : string) : bool :=
  bool_decide (foldTagKey s ∈ foldTagKey <$> t.*1).

(** [s] folds to the fold of some alias. *)
Definition matches_alias (t : object) (s : string) : bool :=
  bool_decide (foldTagKey s ∈ foldTagKey <$> (t ≫= λ p, alias_strings p.2)).

End Resolver.

(** ** Sample tables *)

Module Examples.

Definition labels (en zh : string) : value :=
  VObj [("en", VStr en); ("zh", VStr zh)].

Definition entry (en zh : string) (aliases : list value) : value :=
  VObj [("en", VStr en); ("zh", VStr zh); ("aliases", VArr aliases)].

(** [{"cat-a": {en: "Cat A", zh: "猫A", aliases: ["CAT_A", " cat a "]}}] *)
Definition cat_table : object :=
  [("cat-a", entry "Cat A" "猫A" [VStr "CAT_A"; VStr " cat a "])].

(** Two keys, the first of which claims the second as an alias. *)
Definition shadowed_table : object :=
  [("a", entry "A" "甲" [VStr "b"]); ("b", labels "B" "乙")].

(** The empty string as a canonical key. *)
Definition empty_key_table : object :=
  [("", entry "E" "Z" [VStr "foo"])].

(** Labels that are strings, but empty ones. *)
Definition blank_table : object :=
  [("a", labels "" "")].

(** A key that is an array index, created after one that is not. *)
Definition numbered_table : object :=
  [("b", labels "B" "乙"); ("1", labels "One" "一")].

(** A CommonJS host whose [require] yields the given table. *)
Definition node (t : object) : host :=
  {| required := Some (VObj t); fetch_is_function := false |}.

(** A browser host with [fetch]. *)
Definition browser : host :=
  {| required := None; fetch_is_function := true |}.

End Examples.

(** A CommonJS host whose [require] throws. *)
Definition missing : host :=
  {| required := None; fetch_is_function := false |}.

(** * Properties *)

(** ** Own properties and their enumeration *)

Lemma GetOwnProperty_Some_elem (props : object) k v :
  GetOwnProperty props k = Some v → (k, v) ∈ props.
Proof.
  induction props as [|[k' v'] rest IH]; simpl; [done|].
  case_decide as Hk; simpl in Hk.
  - intros [= <-]. subst k'. apply list_elem_of_here.
  - intros Hrest. apply list_elem_of_further. by apply IH.
Qed.

Lemma GetOwnProperty_None (props : object) k :
  GetOwnProperty props k = None ↔ k ∉ props.*1.
Proof.
  induction props as [|[k' v'] rest IH]; simpl.
  - split; [intros _; apply not_elem_of_nil | done].
  - case_decide as Hk; simpl in Hk.
    + subst k'. split; [done|]. intros Hn. exfalso. apply Hn, list_elem_of_here.
    + rewrite IH, not_elem_of_cons.
      split; [intros ?; split; [congruence | done] | by intros [_ ?]].
Qed.

Lemma GetOwnProperty_elem (props : object) k v :
  NoDup props.*1 → (k, v) ∈ props → GetOwnProperty props k = Some v.
Proof.
  induction props as [|[k' v'] rest IH]; simpl.
  - intros _ Hin. by apply elem_of_nil in Hin.
  - rewrite NoDup_cons. intros [Hfresh Hnd] Hin.
    apply elem_of_cons in Hin as [[= -> ->]|Hin].
    + by rewrite decide_True.
    + rewrite decide_False; [by apply IH|].
      simpl. intros ->. apply Hfresh.
      apply list_elem_of_fmap. by exists (k, v).
Qed.

Lemma Get_own (props : object) k v :
  NoDup props.*1 → (k, v) ∈ props → Get props k = v.
Proof. intros Hnd Hin. unfold Get. by rewrite (GetOwnProperty_elem _ _ v). Qed.

Lemma split_by_index (props : object) :
  (snd <$> indexed_properties props) ++ named_properties props ≡ₚ props.
Proof.
  unfold indexed_properties, named_properties.
  induction props as [|p rest IH]; [done|].
  destruct (array_index p.1) as [n|] eqn:Hidx.
  - rewrite filter_cons_False by (rewrite Hidx; done).
    simpl. rewrite Hidx. simpl. by rewrite IH.
  - rewrite filter_cons_True by done.
    simpl. rewrite Hidx. simpl.
    rewrite <- Permutation_middle. by rewrite IH.
Qed.

Lemma ordered_properties_Permutation (props : object) :
  ordered_properties props ≡ₚ props.
Proof.
  unfold ordered_properties.
  rewrite (merge_sort_Permutation index_le). apply split_by_index.
Qed.

Lemma ordered_properties_named (props : object) :
  Forall (λ p, array_index p.1 = None) props → ordered_properties props = props.
Proof.
  intros Hall. unfold ordered_properties, indexed_properties, named_properties.
  assert (omap (λ p : string * value, n ← array_index p.1; Some (n, p)) props = [])
    as ->.
  { induction Hall as [|p rest Hp _ IH]; [done|]. simpl. by rewrite Hp. }
  simpl. induction Hall as [|p rest Hp _ IH]; [done|].
  rewrite filter_cons_True by done. by rewrite IH.
Qed.

Lemma index_le_total : Total index_le.
Proof. intros a b. unfold index_le. lia. Qed.

Lemma index_le_transitive : Transitive index_le.
Proof. intros a b c. unfold index_le. lia. Qed.

(** The array indexes come first and ascend; the other keys follow as they
    were created. *)
Lemma ordered_properties_sorted (props : object) :
  ∃ sorted : list (N * (string * value)),
    ordered_properties props
    = ((snd <$> sorted) ++ filter (λ p, array_index p.1 = None) props)%list
    ∧ sorted ≡ₚ indexed_properties props
    ∧ StronglySorted index_le sorted
    ∧ Forall (λ ip, array_index ip.2.1 = Some ip.1) sorted.
Proof.
  exists (merge_sort index_le (indexed_properties props)).
  split; [done|].
  split; [apply merge_sort_Permutation|].
  split.
  - apply StronglySorted_merge_sort;
      [apply index_le_transitive | apply index_le_total].
  - rewrite (merge_sort_Permutation index_le).
    unfold indexed_properties. apply Forall_forall.
    intros [n p] Hin. apply list_elem_of_omap in Hin as (p' & _ & Hp').
    simpl. destruct (array_index p'.1) as [n'|] eqn:Hidx; [|done].
    by injection Hp' as -> ->.
Qed.

Lemma Object_keys_Permutation (props : object) :
  Object_keys props ≡ₚ props.*1.
Proof. unfold Object_keys. by rewrite ordered_properties_Permutation. Qed.

Lemma elem_of_Object_keys (props : object) k :
  k ∈ Object_keys props ↔ k ∈ props.*1.
Proof. by rewrite Object_keys_Permutation. Qed.

Lemma elem_of_ordered_properties (props : object) p :
  p ∈ ordered_properties props ↔ p ∈ props.
Proof. by rewrite ordered_properties_Permutation. Qed.

Lemma Object_keys_nil (props : object) :
  length (Object_keys props) = 0 ↔ props = [].
Proof.
  rewrite Object_keys_Permutation, length_fmap. by destruct props.
Qed.

(** ** The indexes *)

Section Indexes.

Context `{StringOps}.

Lemma truthy_GetV (v : value) k : truthy v = true → is_Some (GetV v k).
Proof. destruct v; simpl; try done; eauto. Qed.

Lemma aliases_of_total (entry : value) : is_Some (aliases_of entry).
Proof.
  unfold aliases_of. destruct (truthy entry) eqn:Ht; [|eauto].
  destruct (truthy_GetV entry "aliases" Ht) as [a ->]. simpl. eauto.
Qed.

Lemma aliases_of_entry_aliases (entry : value) :
  aliases_of entry = Some (entry_aliases entry).
Proof.
  unfold entry_aliases. by destruct (aliases_of_total entry) as [l ->].
Qed.

Lemma first_match_app f (l1 l2 : list (string * string)) :
  first_match f (l1 ++ l2)
  = match first_match f l1 with Some c => Some c | None => first_match f l2 end.
Proof.
  induction l1 as [|p l1 IH]; simpl; [done|]. by case_decide.
Qed.

Lemma first_match_Some f l c :
  first_match f l = Some c → (f, c) ∈ l.
Proof.
  induction l as [|[f' c'] l IH]; simpl; [done|].
  case_decide as Hf; simpl in Hf.
  - intros [= <-]. subst. apply list_elem_of_here.
  - intros Hl. apply list_elem_of_further. by apply IH.
Qed.

Lemma first_match_None f l :
  first_match f l = None ↔ f ∉ l.*1.
Proof.
  induction l as [|[f' c'] l IH]; simpl.
  - split; [intros _; apply not_elem_of_nil | done].
  - case_decide as Hf; simpl in Hf.
    + subst. split; [done|]. intros Hn. exfalso. apply Hn, list_elem_of_here.
    + rewrite IH, not_elem_of_cons.
      split; [intros ?; split; [congruence | done] | by intros [_ ?]].
Qed.

(** The four cases of the inner loop body. *)
Lemma register_alias_not_string canonical (m : gmap string string) alias :
  typeof alias ≠ TString → register_alias canonical m alias = m.
Proof. by destruct alias. Qed.

Lemma register_alias_empty_fold canonical (m : gmap string string) a :
  foldTagKey a = "" → register_alias canonical m (VStr a) = m.
Proof. intros Hf. unfold register_alias. by rewrite decide_True. Qed.

Lemma register_alias_taken canonical (m : gmap string string) a :
  is_Some (m !! foldTagKey a) → register_alias canonical m (VStr a) = m.
Proof.
  intros [c Hc]. unfold register_alias. rewrite Hc. by case_decide.
Qed.

Lemma register_alias_fresh canonical (m : gmap string string) a :
  foldTagKey a ≠ "" → m !! foldTagKey a = None →
  register_alias canonical m (VStr a) = <[foldTagKey a := canonical]> m.
Proof.
  intros Hf Hm. unfold register_alias. rewrite Hm. by rewrite decide_False.
Qed.

Lemma register_alias_lookup canonical (m : gmap string string) alias f :
  register_alias canonical m alias !! f
  = match m !! f with
    | Some c => Some c
    | None => first_match f (alias_keys canonical [alias])
    end.
Proof.
  unfold alias_keys. simpl. rewrite app_nil_r.
  destruct alias as [| | | |a| | |]; simpl; try by destruct (m !! f).
  case_decide as He; simpl; [by destruct (m !! f)|].
  destruct (m !! foldTagKey a) as [c|] eqn:Hm.
  - case_decide as Hf; simpl in Hf; [by rewrite <- Hf, Hm|by destruct (m !! f)].
  - rewrite lookup_insert. case_decide as Hf; simpl.
    + subst f. by rewrite Hm.
    + by destruct (m !! f).
Qed.

Lemma register_aliases_lookup canonical (m : gmap string string) aliases f :
  foldl (register_alias canonical) m aliases !! f
  = match m !! f with
    | Some c => Some c
    | None => first_match f (alias_keys canonical aliases)
    end.
Proof.
  revert m. induction aliases as [|alias aliases IH]; intros m; simpl.
  - by destruct (m !! f).
  - rewrite IH, register_alias_lookup.
    change (alias_keys canonical (alias :: aliases))
      with (alias_keys canonical [alias] ++ alias_keys canonical aliases).
    rewrite first_match_app.
    destruct (m !! f); [done|].
    unfold alias_keys at 1 3. simpl. rewrite app_nil_r.
    by destruct (first_match f _).
Qed.

Lemma index_loop_lookup (table : object) maps keys :
  ∃ maps',
    index_loop table maps keys = Some maps'
    ∧ (∀ f, maps'.1 !! f
            = match maps.1 !! f with
              | Some c => Some c
              | None => first_match f (alias_registrations table keys)
              end)
    ∧ (∀ f, maps'.2 !! f
            = match last_folded f keys with
              | Some k => Some k
              | None => maps.2 !! f
              end).
Proof.
  revert maps. induction keys as [|k keys IH]; intros maps; simpl.
  - exists maps. split; [done|]. split; intros f; by destruct (maps.1 !! f).
  - unfold index_entry. rewrite aliases_of_entry_aliases. simpl.
    destruct (IH (foldl (register_alias k) maps.1 (entry_aliases (Get table k)),
                  <[foldTagKey k := k]> maps.2)) as (maps' & -> & Ha & Hc).
    exists maps'. split; [done|]. split; intros f.
    + rewrite Ha. simpl. rewrite register_aliases_lookup.
      unfold alias_registrations. simpl. rewrite first_match_app.
      destruct (maps.1 !! f); [done|].
      by destruct (first_match f (alias_keys k _)).
    + rewrite Hc. simpl. destruct (last_folded f keys); [done|].
      rewrite lookup_insert. by case_decide.
Qed.

Lemma elem_of_alias_keys f c canonical (aliases : list value) :
  (f, c) ∈ alias_keys canonical aliases
  ↔ c = canonical ∧ f ≠ "" ∧ ∃ a, VStr a ∈ aliases ∧ foldTagKey a = f.
Proof.
  unfold alias_keys. rewrite list_elem_of_bind. split.
  - intros (alias & Hin & Halias).
    destruct alias as [| | | |a| | |]; try by apply elem_of_nil in Hin.
    case_decide as Hfold; [by apply elem_of_nil in Hin|].
    apply list_elem_of_singleton in Hin. injection Hin as -> ->.
    split; [done|]. split; [done|]. by exists a.
  - intros (-> & Hf & a & Hin & <-). exists (VStr a). split; [|done].
    rewrite decide_False by done. apply list_elem_of_here.
Qed.

Lemma alias_keys_app canonical (l1 l2 : list value) :
  alias_keys canonical (l1 ++ l2)
  = (alias_keys canonical l1 ++ alias_keys canonical l2)%list.
Proof. unfold alias_keys. apply bind_app. Qed.

Lemma aliases_of_declared (entry : value) :
  aliases_of entry = Some (declared_aliases entry).
Proof.
  unfold aliases_of, declared_aliases.
  destruct entry as [| |b|x|s| |e|]; simpl; try done.
  - by destruct b.
  - by destruct x.
  - by destruct (negb _).
  - unfold Get. by destruct (GetOwnProperty e "aliases") as [[]|].
Qed.

Lemma alias_registrations_declared (table : object) (keys : list string) :
  alias_registrations table keys = declared_registrations table keys.
Proof.
  unfold alias_registrations, declared_registrations, entry_aliases.
  induction keys as [|k keys IH]; [done|].
  rewrite !bind_cons, IH. by rewrite aliases_of_declared.
Qed.

Lemma elem_of_declared_registrations f c (table : object) keys :
  (f, c) ∈ declared_registrations table keys
  ↔ c ∈ keys ∧ f ≠ ""
    ∧ ∃ a, VStr a ∈ declared_aliases (Get table c) ∧ foldTagKey a = f.
Proof.
  unfold declared_registrations. rewrite list_elem_of_bind. split.
  - intros (k & Hin & Hk). apply elem_of_alias_keys in Hin as (-> & Hf & Ha).
    done.
  - intros (Hc & Hf & Ha). exists c. split; [|done].
    by apply elem_of_alias_keys.
Qed.

End Indexes.

(** ** Validation, installation and the state invariant *)

Section Loading.

Context `{StringOps}.

Lemma wf_value_NoDup (props : object) :
  wf_value (VObj props) = true → NoDup props.*1.
Proof.
  simpl. intros Hwf. apply andb_prop in Hwf as [Hnd _].
  by apply bool_decide_eq_true in Hnd.
Qed.

Lemma isPlainObject_VObj (v : value) :
  isPlainObject v = true ↔ ∃ props, v = VObj props.
Proof.
  split; [|by intros [props ->]].
  destruct v; try done. eauto.
Qed.

Lemma shape_check_Forall (props : object) :
  NoDup props.*1 →
  forallb (λ key, entry_shape_ok (Get props key)) (Object_keys props) = true
  ↔ Forall (λ p, entry_shape_ok p.2 = true) props.
Proof.
  intros Hnd. rewrite forallb_forall, Forall_forall. split.
  - intros Hkeys [k e] Hin. simpl.
    rewrite <- (Get_own props k e) by done.
    apply Hkeys, list_elem_of_In, elem_of_Object_keys.
    apply list_elem_of_fmap. by exists (k, e).
  - intros Hprops k Hk.
    rewrite <- list_elem_of_In, elem_of_Object_keys in Hk.
    apply list_elem_of_fmap in Hk as ([k' e] & -> & Hin).
    simpl. rewrite (Get_own props k' e) by done. by apply (Hprops (k', e)).
Qed.

Lemma buildIndexes_set_tagTable (t : object) (st : state) :
  ∃ st', buildIndexes t (set_tagTable t st) = Some st'
         ∧ installed t st st'.
Proof.
  unfold buildIndexes.
  destruct (index_loop_lookup t (∅, ∅) (Object_keys t)) as (maps & Hloop & _).
  rewrite Hloop. simpl. eexists. split; [done|].
  split; [done|]. split; [|done]. by exists maps.
Qed.

(** What [setTagTable] does, by the outcome of its own tests. *)
Lemma setTagTable_cases (v : value) (st : state) :
  wf_value v = true →
  setTagTable v st = st
  ∨ ∃ t, v = VObj t ∧ valid_table t ∧ installed t st (setTagTable v st).
Proof.
  intros Hwf. unfold setTagTable.
  destruct (isPlainObject v) eqn:Hobj; simpl; [|by left].
  apply isPlainObject_VObj in Hobj as [t ->].
  pose proof (wf_value_NoDup t Hwf) as Hnd.
  case_decide as Hlen; [by left|].
  destruct (forallb _ _) eqn:Hshape; [|by left].
  right. exists t. split; [done|].
  destruct (buildIndexes_set_tagTable t st) as (st' & -> & Hinst). simpl.
  split; [|done]. split; [done|]. split.
  - intros ->. by apply Hlen.
  - by apply shape_check_Forall.
Qed.

Lemma installed_inv p (t : object) (st st' : state) :
  valid_table t → installed t st st' →
  browserLoadPromise st ≠ Some Pending →
  (p = CommonJS → browserLoadPromise st = None) →
  state_inv p st'.
Proof.
  intros Hvalid (Htable & Hidx & Hpromise) Hpending Hnode.
  unfold state_inv. rewrite Htable, Hpromise. done.
Qed.

Lemma maybeLoadTagTable_loaded p h (st : state) :
  tagTable st ≠ None → maybeLoadTagTable p h st = st.
Proof. unfold maybeLoadTagTable. by destruct (tagTable st). Qed.

Lemma maybeLoadTagTable_inv p h (st : state) :
  wf_host h = true → state_inv p st → state_inv p (maybeLoadTagTable p h st).
Proof.
  intros Hwf Hinv. unfold maybeLoadTagTable.
  destruct (tagTable st) as [t|] eqn:Htable; [done|].
  destruct p.
  - unfold wf_host in Hwf. destruct (required h) as [v|]; [|done].
    destruct (setTagTable_cases v st Hwf) as [->|(t & _ & Hvalid & Hinst)];
      [done|].
    destruct Hinv as [_ Hnode].
    apply (installed_inv _ t st); [done..| |done].
    by rewrite Hnode.
  - destruct (browserLoadPromise st) eqn:Hpromise; [done|].
    destruct (fetch_is_function h); simpl; [|done].
    unfold state_inv in *. simpl. rewrite Htable in *.
    split; [tauto | done].
Qed.

Lemma fetch_settled_inv p outcome (st : state) :
  wf_outcome outcome = true → browserLoadPromise st = Some Pending →
  state_inv p st → state_inv p (fetch_settled outcome st).
Proof.
  intros Hwf Hpending Hinv.
  assert (p = Browser) as ->.
  { destruct p; [|done]. destruct Hinv as [_ Hnode].
    rewrite Hnode in Hpending; done. }
  assert (tagTable st = None) as Hnone.
  { destruct Hinv as [Hinv _]. destruct (tagTable st); [|done].
    by destruct Hinv as (_ & _ & Hne). }
  assert (∀ st0, tagTable st0 = None → state_inv Browser st0 →
                 state_inv Browser (set_browserLoadPromise Settled st0)) as Hkeep.
  { intros st0 H0 [Hinv0 _]. unfold state_inv in *. simpl.
    rewrite H0 in *. done. }
  unfold fetch_settled.
  destruct outcome as [data|]; [|by apply Hkeep].
  destruct (truthy data); [|by apply Hkeep].
  destruct (setTagTable_cases data st Hwf) as [->|(t & _ & Hvalid & Hinst)];
    [by apply Hkeep|].
  destruct Hinst as (Htable & (maps & Hloop & Ha & Hc) & _).
  unfold state_inv. simpl. rewrite Htable.
  split; [|done]. split; [done|]. split; [|done]. by exists maps.
Qed.

(** The state a query leaves behind is the one its load attempt produced. *)
Lemma normalizeTag_state p h tag (st : state) :
  (normalizeTag p h tag st).2 = st
  ∨ (normalizeTag p h tag st).2 = maybeLoadTagTable p h st.
Proof.
  unfold normalizeTag. destruct tag; try by left.
  case_decide; [by left|]. right.
  destruct (aliasToCanonical (maybeLoadTagTable p h st)),
    (foldedCanonicalToCanonical (maybeLoadTagTable p h st)); try done.
  by case_decide.
Qed.

Lemma translateTag_state p h tag lang (st : state) :
  (translateTag p h tag lang st).2 = st
  ∨ (translateTag p h tag lang st).2 = maybeLoadTagTable p h st.
Proof.
  unfold translateTag. destruct tag as [| | | |s| | |]; try by left.
  case_decide; [by left|]. right.
  destruct (tagTable (maybeLoadTagTable p h st)) as [t|] eqn:Htable; [|done].
  destruct (normalizeTag p h (VStr s) (maybeLoadTagTable p h st))
    as [canonical st'] eqn:Hn.
  assert (st' = maybeLoadTagTable p h st) as ->.
  { change st' with (canonical, st').2. rewrite <- Hn.
    destruct (normalizeTag_state p h (VStr s) (maybeLoadTagTable p h st))
      as [->| ->]; [done|].
    apply maybeLoadTagTable_loaded. by rewrite Htable. }
  by destruct (negb _).
Qed.

Lemma getAllTags_state p h lang (st : state) :
  (getAllTags p h lang st).2 = maybeLoadTagTable p h st.
Proof. unfold getAllTags. by destruct (tagTable _). Qed.

Lemma step_inv p ev (st st' : state) :
  state_inv p st → step p ev st = Some st' → state_inv p st'.
Proof.
  intros Hinv. destruct ev as [h tag|h tag lang|h lang|outcome]; simpl.
  - destruct (wf_host h) eqn:Hwf; [|done]. intros [= <-].
    destruct (normalizeTag_state p h tag st) as [-> | ->];
      [done | by apply maybeLoadTagTable_inv].
  - destruct (wf_host h) eqn:Hwf; [|done]. intros [= <-].
    destruct (translateTag_state p h tag lang st) as [-> | ->];
      [done | by apply maybeLoadTagTable_inv].
  - destruct (wf_host h) eqn:Hwf; [|done]. intros [= <-].
    rewrite getAllTags_state. by apply maybeLoadTagTable_inv.
  - destruct (browserLoadPromise st) as [[|]|] eqn:Hpromise; try done.
    destruct (wf_outcome outcome) eqn:Hwf; [|done]. intros [= <-].
    by apply fetch_settled_inv.
Qed.

Lemma run_inv p evs (st st' : state) :
  state_inv p st → run p evs st = Some st' → state_inv p st'.
Proof.
  revert st. induction evs as [|ev evs IH]; intros st Hinv; simpl.
  - by intros [= <-].
  - destruct (step p ev st) as [st1|] eqn:Hstep; [|done]. simpl.
    apply IH. by apply (step_inv p ev st).
Qed.

Lemma initial_state_inv p : state_inv p initial_state.
Proof. done. Qed.

Lemma reachable_inv p (st : state) : reachable p st → state_inv p st.
Proof.
  intros (h & evs & Hwf & Hrun).
  apply (run_inv p evs (module_init p h)); [|done].
  by apply maybeLoadTagTable_inv.
Qed.

End Loading.

(** ** What a successful load establishes *)

Section Loaded.

Context `{StringOps}.

Lemma has_labels (entry : value) :
  entry_shape_ok entry = true →
  ∃ e en zh, entry = VObj e
    ∧ GetOwnProperty e "en" = Some (VStr en)
    ∧ GetOwnProperty e "zh" = Some (VStr zh).
Proof.
  unfold entry_shape_ok. intros Hok. apply andb_prop in Hok as [_ Hok].
  destruct entry as [| | | | | |e|]; try done.
  apply andb_prop in Hok as [Hen Hzh].
  apply bool_decide_eq_true in Hen, Hzh. unfold Get in Hen, Hzh.
  destruct (GetOwnProperty e "en") as [[| | | |en| | |]|] eqn:Een; try done.
  destruct (GetOwnProperty e "zh") as [[| | | |zh| | |]|] eqn:Ezh; try done.
  by exists e, en, zh.
Qed.

Lemma entry_shape_ok_policy (entry : value) :
  entry_shape_ok entry = isPlainObject entry && negb (lacks_labels entry).
Proof.
  unfold entry_shape_ok, lacks_labels.
  destruct entry; try done. by rewrite negb_involutive.
Qed.

Lemma policy_accepts (t : object) :
  policy_rejects (VObj t) = false
  ↔ t ≠ [] ∧ Forall (λ p, entry_shape_ok p.2 = true) t.
Proof.
  unfold policy_rejects. simpl.
  rewrite !orb_false_iff, negb_false_iff.
  rewrite forallb_forall, Forall_forall.
  split.
  - intros [[Hobj Hkeys] Hlabels]. split; [by destruct t|].
    intros p Hp. rewrite entry_shape_ok_policy.
    rewrite Hobj by (by apply list_elem_of_In). simpl.
    apply negb_true_iff. destruct (lacks_labels p.2) eqn:Hlacks; [|done].
    rewrite <- Hlabels. symmetry. apply existsb_exists.
    exists p. split; [by apply list_elem_of_In | done].
  - intros [Hne Hall]. split; [split|].
    + intros p Hp. apply list_elem_of_In, Hall in Hp.
      rewrite entry_shape_ok_policy in Hp. by apply andb_prop in Hp as [? _].
    + by destruct t.
    + destruct (existsb _ t) eqn:Hex; [|done].
      apply existsb_exists in Hex as (p & Hp & Hlacks).
      apply list_elem_of_In, Hall in Hp.
      rewrite entry_shape_ok_policy, Hlacks, andb_false_r in Hp. done.
Qed.

Lemma policy_rejects_not_object (v : value) :
  isPlainObject v = false → policy_rejects v = true.
Proof. by destruct v. Qed.

Lemma setTagTable_same_or_loaded (v : value) (st : state) :
  setTagTable v st = st ∨ tagTable (setTagTable v st) ≠ None.
Proof.
  unfold setTagTable. destruct (isPlainObject v); simpl; [|by left].
  destruct v as [| | | | | |t|]; try by left.
  case_decide; [by left|].
  destruct (forallb _ (Object_keys t)); [|by left]. right.
  destruct (buildIndexes_set_tagTable t st) as (st' & -> & Htable & _).
  simpl. by rewrite Htable.
Qed.

Lemma setTagTable_accepts (v : value) (st : state) :
  wf_value v = true → policy_rejects v = false →
  ∃ t, v = VObj t ∧ valid_table t ∧ installed t st (setTagTable v st).
Proof.
  intros Hwf Hacc.
  destruct (isPlainObject v) eqn:Hobj;
    [|by rewrite policy_rejects_not_object in Hacc].
  apply isPlainObject_VObj in Hobj as [t ->].
  pose proof (wf_value_NoDup t Hwf) as Hnd.
  apply policy_accepts in Hacc as [Hne Hall].
  exists t. split; [done|]. split; [done|].
  unfold setTagTable. simpl.
  rewrite decide_False by (by rewrite Object_keys_nil).
  apply (shape_check_Forall t Hnd) in Hall. rewrite Hall.
  by destruct (buildIndexes_set_tagTable t st) as (st' & -> & Hinst).
Qed.

Lemma setTagTable_rejects (v : value) (st : state) :
  wf_value v = true → policy_rejects v = true → setTagTable v st = st.
Proof.
  intros Hwf Hrej. unfold setTagTable.
  destruct (isPlainObject v) eqn:Hobj; simpl; [|done].
  apply isPlainObject_VObj in Hobj as [t ->].
  pose proof (wf_value_NoDup t Hwf) as Hnd.
  case_decide as Hlen; [done|].
  destruct (forallb _ (Object_keys t)) eqn:Hshape; [|done].
  exfalso. assert (policy_rejects (VObj t) = false) as Hacc; [|congruence].
  apply policy_accepts. split.
  - intros ->. by apply Hlen.
  - by apply shape_check_Forall.
Qed.

Lemma indexes_of_lookup (t : object) (st : state) :
  indexes_of t st →
  ∃ a c,
    aliasToCanonical st = Some a
    ∧ foldedCanonicalToCanonical st = Some c
    ∧ (∀ f, a !! f = first_match f (alias_registrations t (Object_keys t)))
    ∧ (∀ f, c !! f = last_folded f (Object_keys t)).
Proof.
  intros (maps & Hloop & Ha & Hc).
  destruct (index_loop_lookup t (∅, ∅) (Object_keys t))
    as (maps' & Hloop' & Hfirst & Hlast).
  rewrite Hloop in Hloop'. injection Hloop' as <-.
  exists maps.1, maps.2. split; [done|]. split; [done|].
  split; intros f.
  - rewrite Hfirst. simpl. by rewrite lookup_empty.
  - rewrite Hlast. simpl. rewrite lookup_empty. by destruct (last_folded _ _).
Qed.

(** C5, as amended: in every state of a run that holds a table, each entry of
    the table is a plain object whose own [en] and [zh] fields are strings.
    Nothing is said about their length: the shape check tests the type only. *)
Theorem loaded_entries_have_string_labels p (st : state) (t : object) k entry :
  reachable p st → tagTable st = Some t → (k, entry) ∈ t →
  ∃ e en zh,
    entry = VObj e
    ∧ GetOwnProperty e "en" = Some (VStr en)
    ∧ GetOwnProperty e "zh" = Some (VStr zh).
Proof.
  intros Hreach Htable Hin.
  destruct (reachable_inv p st Hreach) as [Hinv _].
  rewrite Htable in Hinv. destruct Hinv as ((_ & _ & Hall) & _).
  rewrite Forall_forall in Hall. by apply (has_labels _ (Hall (k, entry) Hin)).
Qed.

(** C6: a well-formed candidate is rejected, and the state left as it was,
    when the validation policy rejects it; otherwise it is a plain object
    and [setTagTable] installs it together with the indexes built from it. *)
Theorem setTagTable_follows_policy (v : value) (st : state) :
  wf_value v = true →
  (policy_rejects v = true → setTagTable v st = st)
  ∧ (policy_rejects v = false →
     ∃ t, v = VObj t ∧ installed t st (setTagTable v st)).
Proof.
  intros Hwf. unfold setTagTable.
  destruct (isPlainObject v) eqn:Hobj; simpl.
  - apply isPlainObject_VObj in Hobj as [t ->].
    pose proof (wf_value_NoDup t Hwf) as Hnd.
    pose proof (policy_accepts t) as Hpolicy.
    rewrite <- (shape_check_Forall t Hnd) in Hpolicy.
    case_decide as Hlen.
    + apply Object_keys_nil in Hlen as ->. split; [done|]. by intros [[] _]%Hpolicy.
    + destruct (forallb _ (Object_keys t)) eqn:Hshape.
      * split.
        { intros Hrej. exfalso.
          assert (policy_rejects (VObj t) = false) as Hacc; [|congruence].
          apply Hpolicy. split; [|done]. intros ->. by apply Hlen. }
        intros _. exists t. split; [done|].
        by destruct (buildIndexes_set_tagTable t st) as (st' & -> & Hinst).
      * split; [done|]. intros [_ Hall]%Hpolicy. congruence.
  - split; [done|]. intros Hacc.
    rewrite policy_rejects_not_object in Hacc; done.
Qed.

(** C7: the loops of [buildIndexes] never throw.  The first four parts are
    the cases of the inner loop body: an alias that is not a string, or whose
    fold is empty, or whose fold is already a key of the alias index, leaves
    the index as it is, and any other alias is added under the current
    canonical key.  The alias index that results is then read off the table:
    - it maps a fold to the canonical key of the first declared alias with
      that fold, canonical keys taken in the order of [Object.keys] and the
      aliases of one entry in the order of its array: an alias that is a
      string with a non-empty fold wins whenever no alias declared under an
      earlier key, and no earlier alias of its own entry, has the same fold;
    - it holds nothing else: every pair of the index comes from a declared
      alias that is a string with that non-empty fold, under that key. *)
Theorem buildIndexes_first_alias_wins (table : object) (st : state) :
  (∀ canonical (m : gmap string string) alias,
     typeof alias ≠ TString → register_alias canonical m alias = m)
  ∧ (∀ canonical (m : gmap string string) a,
       foldTagKey a = "" → register_alias canonical m (VStr a) = m)
  ∧ (∀ canonical (m : gmap string string) a,
       is_Some (m !! foldTagKey a) → register_alias canonical m (VStr a) = m)
  ∧ (∀ canonical (m : gmap string string) a,
       foldTagKey a ≠ "" → m !! foldTagKey a = None →
       register_alias canonical m (VStr a) = <[foldTagKey a := canonical]> m)
  ∧ ∃ st' aliasMap,
      buildIndexes table st = Some st'
      ∧ aliasToCanonical st' = Some aliasMap
      ∧ (∀ f, aliasMap !! f
              = first_match f
                  (declared_registrations table (Object_keys table)))
      ∧ (∀ before k after pre a post,
           Object_keys table = (before ++ k :: after)%list →
           declared_aliases (Get table k) = (pre ++ VStr a :: post)%list →
           foldTagKey a ≠ "" →
           (∀ k' a', k' ∈ before →
                     VStr a' ∈ declared_aliases (Get table k') →
                     foldTagKey a' ≠ foldTagKey a) →
           (∀ a', VStr a' ∈ pre → foldTagKey a' ≠ foldTagKey a) →
           aliasMap !! foldTagKey a = Some k)
      ∧ (∀ f k,
           aliasMap !! f = Some k →
           f ≠ "" ∧ k ∈ Object_keys table
           ∧ ∃ a, VStr a ∈ declared_aliases (Get table k)
                  ∧ foldTagKey a = f).
Proof.
  split; [apply register_alias_not_string|].
  split; [apply register_alias_empty_fold|].
  split; [apply register_alias_taken|].
  split; [apply register_alias_fresh|].
  unfold buildIndexes.
  destruct (index_loop_lookup table (∅, ∅) (Object_keys table))
    as (maps & -> & Hfirst & _).
  simpl. exists (set_indexes maps.1 maps.2 st), maps.1.
  assert (∀ f, maps.1 !! f
               = first_match f
                   (declared_registrations table (Object_keys table)))
    as Hlookup.
  { intros f. rewrite Hfirst. simpl.
    by rewrite lookup_empty, alias_registrations_declared. }
  split; [done|]. split; [done|]. split; [done|]. split.
  - intros before k after pre a post Hkeys Haliases Hfold Hbefore Hpre.
    rewrite Hlookup, Hkeys. unfold declared_registrations.
    rewrite bind_app, bind_cons, Haliases.
    rewrite alias_keys_app, !first_match_app.
    assert (first_match (foldTagKey a)
              (before ≫= λ canonical,
                 alias_keys canonical (declared_aliases (Get table canonical)))
            = None) as ->.
    { apply first_match_None.
      intros ([f c] & Hf & Hin)%list_elem_of_fmap. simpl in Hf. subst f.
      apply (elem_of_declared_registrations _ c table before) in Hin
        as (Hc & _ & a' & Ha' & Hfa').
      by apply (Hbefore c a'). }
    assert (first_match (foldTagKey a) (alias_keys k pre) = None) as ->.
    { apply first_match_None.
      intros ([f c] & Hf & Hin)%list_elem_of_fmap. simpl in Hf. subst f.
      apply elem_of_alias_keys in Hin as (_ & _ & a' & Ha' & Hfa').
      by apply (Hpre a'). }
    unfold alias_keys at 1. rewrite bind_cons.
    rewrite decide_False by done. simpl. by rewrite decide_True.
  - intros f k. rewrite Hlookup.
    intros Hin%first_match_Some%elem_of_declared_registrations.
    by destruct Hin as (Hk & Hf & Ha).
Qed.

End Loaded.

(** ** The queries *)

Section Queries.

Context `{StringOps}.

Lemma normalizedLang_lang_field (lang : value) :
  normalizedLang lang = lang_field lang.
Proof. by destruct lang. Qed.

Lemma or_else_nonempty (o : option string) (b : string) :
  or_else o b = match nonempty o with Some k => k | None => b end.
Proof.
  by destruct o as [[|a k]|].
Qed.

Lemma normalizeTag_spec p h (tag : value) (st : state) :
  normalizeTag p h tag st
  = (normalizeTag_described pick_nonempty_match tag
       (available_indexes (maybeLoadTagTable p h st)),
     if is_tag tag then maybeLoadTagTable p h st else st).
Proof.
  unfold normalizeTag, normalizeTag_described, available_indexes, is_tag.
  destruct tag as [| | | |s| | |]; try done.
  case_decide as Hs; [by rewrite bool_decide_eq_true_2|].
  rewrite bool_decide_eq_false_2 by done. simpl.
  destruct (aliasToCanonical (maybeLoadTagTable p h st)) as [a|]; [|done].
  destruct (foldedCanonicalToCanonical (maybeLoadTagTable p h st)) as [c|];
    [|done].
  case_decide; [done|].
  unfold pick_nonempty_match. by rewrite !or_else_nonempty.
Qed.

(** C2, as amended: [normalizeTag] returns the empty string for anything
    that is not a non-empty string; otherwise it attempts a load and returns
    the input when an index is unavailable, the empty string when the input
    folds to the empty string, and else the first of these that applies: the
    alias-index match if that is a non-empty string, the fold-index match if
    that is a non-empty string, the input.  The load attempt is the only
    effect on the state, and is made only for a non-empty string. *)
Theorem normalizeTag_as_described p h (tag : value) (st : state) :
  normalizeTag p h tag st
  = (normalizeTag_described pick_nonempty_match tag
       (available_indexes (maybeLoadTagTable p h st)),
     if is_tag tag then maybeLoadTagTable p h st else st).
Proof. apply normalizeTag_spec. Qed.

Lemma truthy_GetInherited_label k field :
  field = "en" ∨ field = "zh" →
  truthy (GetInherited k) = true →
  GetV (GetInherited k) field = Some VUndefined.
Proof.
  intros Hfield. unfold GetInherited.
  case_decide; [by destruct Hfield as [-> | ->]|].
  by case_decide.
Qed.

Lemma lang_field_cases (lang : value) :
  lang_field lang = "en" ∨ lang_field lang = "zh".
Proof. unfold lang_field. destruct (strict_eq_string lang "zh"); eauto. Qed.

(** What the tail of [translateTag] makes of the value found under the
    canonical key. *)
Lemma translate_entry (entry : value) (field s : string) (st : state) :
  (if negb (truthy entry) then (Some s, st)
   else (translated ← GetV entry field;
         Some (match translated with
               | VStr t => if decide (t = "") then s else t
               | _ => s
               end), st))
  = (Some (default s (label_of entry field)), st).
Proof.
  destruct entry as [| |b|x| | |e|]; simpl; try done.
  - by destruct b.
  - by destruct x.
  - by destruct (negb _).
  - destruct (Get e field); try done. by case_decide.
Qed.

Lemma translateTag_spec p h (tag lang : value) (st : state) :
  let st1 := maybeLoadTagTable p h st in
  translateTag p h tag lang st
  = (Some (translateTag_described entry_for_nonempty tag lang (tagTable st1)
             (normalizeTag p h tag st1).1),
     if is_tag tag then st1 else st).
Proof.
  unfold translateTag, translateTag_described, is_tag. cbv zeta.
  destruct tag as [| | | |s| | |]; try done.
  set (st1 := maybeLoadTagTable p h st).
  case_decide as Hs; [by rewrite bool_decide_eq_true_2|].
  rewrite bool_decide_eq_false_2 by done. cbn [negb].
  destruct (tagTable st1) as [t|] eqn:Htable; [|done].
  destruct (normalizeTag p h (VStr s) st1) as [canonical st2] eqn:Hn.
  assert (st2 = st1) as ->.
  { change st2 with (canonical, st2).2. rewrite <- Hn.
    rewrite normalizeTag_spec. cbn [snd is_tag].
    rewrite bool_decide_eq_false_2 by done. cbn [negb].
    apply maybeLoadTagTable_loaded. by rewrite Htable. }
  cbn [fst]. rewrite normalizedLang_lang_field.
  unfold entry_for_nonempty.
  case_decide as Hc; [by subst canonical|].
  unfold Get. destruct (GetOwnProperty t canonical) as [entry|]; cbn [default].
  - by rewrite translate_entry.
  - destruct (truthy (GetInherited canonical)) eqn:Htruthy; cbn [negb]; [|done].
    rewrite truthy_GetInherited_label; [done| |done].
    apply lang_field_cases.
Qed.

(** C3, as amended: [translateTag] returns the empty string for anything
    that is not a non-empty string; otherwise it attempts a load and returns
    the tag when no table is loaded; otherwise it resolves the canonical key
    with [normalizeTag] and returns the tag when that key is the empty string
    or the table has no entry under it; otherwise it reads the [zh] field of
    the entry when [lang === 'zh'] and the [en] field for any other [lang],
    and returns the field when it is a non-empty string, the tag when it is
    not.  It never throws. *)
Theorem translateTag_as_described p h (tag lang : value) (st : state) :
  let st1 := maybeLoadTagTable p h st in
  translateTag p h tag lang st
  = (Some (translateTag_described entry_for_nonempty tag lang (tagTable st1)
             (normalizeTag p h tag st1).1),
     if is_tag tag then st1 else st).
Proof. apply translateTag_spec. Qed.

Lemma mapM_keys {A B} (f : string → option B) (g : string * A → B)
    (l : list (string * A)) :
  Forall (λ p, f p.1 = Some (g p)) l → mapM f l.*1 = Some (g <$> l).
Proof.
  intros Hall. apply mapM_Some. apply Forall2_fmap.
  by apply Forall_Forall2_diag.
Qed.

Lemma getAllTags_loaded p h lang (st : state) (t : object) :
  valid_table t → tagTable (maybeLoadTagTable p h st) = Some t →
  getAllTags p h lang st
  = (Some (getAllTags_described ordered_properties lang (Some t)),
     maybeLoadTagTable p h st).
Proof.
  intros (Hnd & _ & Hall) Htable. unfold getAllTags. rewrite Htable.
  unfold getAllTags_described, Object_keys.
  rewrite (mapM_keys _
    (λ p, tag_record p.1 (entry_field p.2 (lang_field lang)))); [done|].
  rewrite Forall_forall in Hall |- *.
  intros [k entry] Hin. rewrite elem_of_ordered_properties in Hin. simpl.
  rewrite (Get_own t k entry) by done.
  destruct (has_labels entry (Hall (k, entry) Hin)) as (e & _ & _ & -> & _).
  simpl. by rewrite normalizedLang_lang_field.
Qed.

Lemma getAllTags_spec p h (lang : value) (st : state) :
  state_inv p st → wf_host h = true →
  getAllTags p h lang st
  = (Some (getAllTags_described ordered_properties lang
             (tagTable (maybeLoadTagTable p h st))),
     maybeLoadTagTable p h st).
Proof.
  intros Hinv Hwf.
  pose proof (maybeLoadTagTable_inv p h st Hwf Hinv) as [Hinv1 _].
  destruct (tagTable (maybeLoadTagTable p h st)) as [t|] eqn:Htable.
  - destruct Hinv1 as (Hvalid & _). by apply getAllTags_loaded.
  - unfold getAllTags. by rewrite Htable.
Qed.

(** C4, as amended: [getAllTags] attempts a load, then returns the empty
    array when no table is loaded, and otherwise one record per entry of the
    table, holding its key and its field for the resolved language as it
    stands, in the order of [Object.keys]: keys that are array indexes first,
    in ascending numeric order, then the other keys in creation order.  The
    keys of the table are pairwise distinct, the records are a rearrangement
    of its entries, and they follow creation order when no key is an array
    index. *)
Theorem getAllTags_as_described p h (lang : value) (st : state) :
  reachable p st → wf_host h = true →
  let st1 := maybeLoadTagTable p h st in
  getAllTags p h lang st
  = (Some (getAllTags_described ordered_properties lang (tagTable st1)), st1)
  ∧ ∀ t, tagTable st1 = Some t →
      NoDup t.*1
      ∧ ordered_properties t ≡ₚ t
      ∧ (Forall (λ p, array_index p.1 = None) t → ordered_properties t = t)
      ∧ ∃ sorted : list (N * (string * value)),
          ordered_properties t
          = ((snd <$> sorted) ++ filter (λ p, array_index p.1 = None) t)%list
          ∧ sorted ≡ₚ indexed_properties t
          ∧ StronglySorted index_le sorted
          ∧ Forall (λ ip, array_index ip.2.1 = Some ip.1) sorted.
Proof.
  intros Hreach Hwf st1. pose proof (reachable_inv p st Hreach) as Hinv.
  split; [by apply getAllTags_spec|].
  intros t Htable.
  pose proof (maybeLoadTagTable_inv p h st Hwf Hinv) as [Hinv1 _].
  fold st1 in Hinv1. rewrite Htable in Hinv1.
  destruct Hinv1 as ((Hnd & _) & _).
  split; [done|]. split; [apply ordered_properties_Permutation|].
  split; [apply ordered_properties_named | apply ordered_properties_sorted].
Qed.

Lemma translateTag_lang p h tag (lang lang' : value) (st : state) :
  lang_field lang = lang_field lang' →
  translateTag p h tag lang st = translateTag p h tag lang' st.
Proof.
  intros Hlang. rewrite !translateTag_spec. simpl.
  unfold translateTag_described. by rewrite Hlang.
Qed.

Lemma getAllTags_lang p h (lang lang' : value) (st : state) :
  lang_field lang = lang_field lang' →
  getAllTags p h lang st = getAllTags p h lang' st.
Proof.
  intros Hlang. unfold getAllTags.
  by rewrite !normalizedLang_lang_field, Hlang.
Qed.

(** C10: in every state of a run, neither [translateTag] nor [getAllTags]
    throws, whatever [lang] is.  For a [lang] other than the string ['zh'],
    be it [undefined], a value that is not a string, or any other string,
    both return what they return for ['en'] and leave the state they leave
    for ['en'], and what they read is the [en] field:
    - [getAllTags] returns, for the entries of the loaded table in the order
      of [Object.keys], the records of their keys with their own [en]
      fields, and the empty array when no table is loaded;
    - for a non-empty string that [normalizeTag] resolves to a non-empty
      key with an entry in the table, [translateTag] returns the own [en]
      field of that entry, or the string itself when that field is empty. *)
Theorem lang_other_than_zh_is_en p h (tag lang : value) (st : state) :
  reachable p st → wf_host h = true →
  (∀ lang', is_Some (translateTag p h tag lang' st).1
            ∧ is_Some (getAllTags p h lang' st).1)
  ∧ (lang ≠ VStr "zh" →
     translateTag p h tag lang st = translateTag p h tag (VStr "en") st
     ∧ getAllTags p h lang st = getAllTags p h (VStr "en") st
     ∧ (tagTable (maybeLoadTagTable p h st) = None →
        (getAllTags p h lang st).1 = Some (VArr []))
     ∧ (∀ t, tagTable (maybeLoadTagTable p h st) = Some t →
          ∃ items,
            (getAllTags p h lang st).1 = Some (VArr items)
            ∧ Forall2 (λ item q,
                         ∃ e en,
                           q.2 = VObj e
                           ∧ GetOwnProperty e "en" = Some (VStr en)
                           ∧ item = tag_record q.1 (VStr en))
                items (ordered_properties t))
     ∧ (∀ t s e en,
          tagTable (maybeLoadTagTable p h st) = Some t →
          tag = VStr s → s ≠ "" →
          (normalizeTag p h tag (maybeLoadTagTable p h st)).1 ≠ "" →
          ((normalizeTag p h tag (maybeLoadTagTable p h st)).1, VObj e) ∈ t →
          GetOwnProperty e "en" = Some (VStr en) →
          (translateTag p h tag lang st).1
          = Some (if decide (en = "") then s else en))).
Proof.
  intros Hreach Hwf.
  pose proof (reachable_inv p st Hreach) as Hinv.
  pose proof (maybeLoadTagTable_inv p h st Hwf Hinv) as [Hinv1 _].
  split.
  { intros lang'. split.
    - rewrite translateTag_spec. simpl. eauto.
    - rewrite getAllTags_spec by done. simpl. eauto. }
  intros Hlang.
  assert (lang_field lang = "en") as Hfield.
  { unfold lang_field. destruct lang as [| | | |s| | |]; try done.
    simpl. rewrite bool_decide_eq_false_2; [done|]. by intros ->. }
  split; [by apply translateTag_lang|].
  split; [by apply getAllTags_lang|].
  split; [|split].
  - intros Htable. rewrite getAllTags_spec by done. by rewrite Htable.
  - intros t Htable. rewrite Htable in Hinv1.
    destruct Hinv1 as ((Hnd & _ & Hall) & _).
    rewrite getAllTags_spec by done. rewrite Htable. cbn [fst].
    unfold getAllTags_described. rewrite Hfield.
    eexists. split; [done|].
    apply Forall2_fmap_l, Forall_Forall2_diag, Forall_forall.
    intros [k entry] Hin. rewrite elem_of_ordered_properties in Hin.
    rewrite Forall_forall in Hall.
    destruct (has_labels entry (Hall (k, entry) Hin))
      as (e & en & zh & -> & Hen & _).
    exists e, en. split; [done|]. split; [done|].
    simpl. unfold Get. by rewrite Hen.
  - intros t s e en Htable -> Hs Hc Hin Hen. rewrite Htable in Hinv1.
    destruct Hinv1 as ((Hnd & _) & _).
    rewrite translateTag_spec. cbv zeta. cbn [fst].
    rewrite Htable. unfold translateTag_described.
    rewrite decide_False by done. unfold entry_for_nonempty.
    rewrite decide_False by done.
    rewrite (GetOwnProperty_elem t _ (VObj e)) by done.
    unfold label_of, Get. rewrite Hfield, Hen. simpl.
    by case_decide.
Qed.

End Queries.

(** ** Resolution against a loaded table *)

Section Resolution.

Context `{StringOps}.

Lemma last_folded_Some f keys k :
  last_folded f keys = Some k → k ∈ keys ∧ foldTagKey k = f.
Proof.
  induction keys as [|k' keys IH]; simpl; [done|].
  destruct (last_folded f keys) as [k''|].
  - intros [= ->]. destruct IH as [Hin Hf]; [done|].
    split; [by apply list_elem_of_further | done].
  - case_decide as Hf; [|done]. intros [= ->].
    split; [apply list_elem_of_here | done].
Qed.

Lemma last_folded_None f keys :
  last_folded f keys = None → f ∉ foldTagKey <$> keys.
Proof.
  induction keys as [|k keys IH]; simpl; [intros _; apply not_elem_of_nil|].
  destruct (last_folded f keys) as [k'|]; [done|].
  case_decide as Hf; [done|]. intros _.
  apply not_elem_of_cons. split; [congruence | by apply IH].
Qed.

Lemma elem_of_alias_strings a (entry : value) :
  a ∈ alias_strings entry ↔ VStr a ∈ entry_aliases entry.
Proof.
  unfold alias_strings. rewrite list_elem_of_omap. split.
  - intros (alias & Hin & Halias). by destruct alias; simplify_eq.
  - intros Hin. by exists (VStr a).
Qed.

Lemma last_folded_last f (before after : list string) k :
  foldTagKey k = f → f ∉ foldTagKey <$> after →
  last_folded f (before ++ k :: after) = Some k.
Proof.
  intros Hk Hafter. induction before as [|k' before IH]; simpl.
  - destruct (last_folded f after) as [k''|] eqn:Hlast.
    + apply last_folded_Some in Hlast as [Hin Hf]. exfalso. apply Hafter.
      apply list_elem_of_fmap. by exists k''.
    + by rewrite decide_True.
  - by rewrite IH.
Qed.

(** A registration comes from a string alias of the entry under its key. *)
Lemma elem_of_alias_registrations f c (t : object) :
  NoDup t.*1 →
  (f, c) ∈ alias_registrations t (Object_keys t) →
  f ≠ "" ∧ ∃ entry a,
    (c, entry) ∈ t ∧ a ∈ alias_strings entry ∧ foldTagKey a = f.
Proof.
  intros Hnd. unfold alias_registrations. rewrite list_elem_of_bind.
  intros (k & Hin & Hk). apply elem_of_alias_keys in Hin
    as (-> & Hf & a & Hin & Hfold).
  split; [done|].
  rewrite elem_of_Object_keys in Hk.
  apply list_elem_of_fmap in Hk as ([k' entry] & -> & Hk).
  simpl in Hin. rewrite (Get_own t k' entry) in Hin by done.
  exists entry, a. by rewrite elem_of_alias_strings.
Qed.

(** What [normalizeTag] computes in a state of a run that holds a table. *)
Lemma normalizeTag_loaded p h (s : string) (st : state) (t : object) :
  state_inv p st → tagTable st = Some t → s ≠ "" → foldTagKey s ≠ "" →
  (normalizeTag p h (VStr s) st).1
  = or_else (first_match (foldTagKey s) (alias_registrations t (Object_keys t)))
      (or_else (last_folded (foldTagKey s) (Object_keys t)) s).
Proof.
  intros [Hinv _] Htable Hs Hfold. rewrite Htable in Hinv.
  destruct Hinv as (_ & Hidx & _).
  apply indexes_of_lookup in Hidx as (a & c & Ha & Hc & Hfirst & Hlast).
  unfold normalizeTag. rewrite decide_False by done. cbv zeta.
  rewrite maybeLoadTagTable_loaded by (by rewrite Htable).
  rewrite Ha, Hc, decide_False by done. simpl. by rewrite Hfirst, Hlast.
Qed.

(** C1, as amended: in a state of a run that holds a table, let [k] be a
    canonical key that is either the empty string, with an empty fold, or a
    non-empty string with a non-empty fold such that
    - the first declared alias with that fold is declared under [k], or
    - no declared alias has that fold, or the first one is declared under the
      empty canonical key, and [k] is the last key, in the order of
      [Object.keys], with its fold.
    Then [normalizeTag] maps [k], and every string whose fold is the fold of
    [k], to [k]; the string is taken non-empty when [k] is. *)
Theorem normalizeTag_canonical p h (st : state) (t : object)
    (before after : list string) (k s : string) :
  reachable p st → tagTable st = Some t →
  Object_keys t = (before ++ k :: after)%list →
  (k = "" ∧ foldTagKey k = ""
   ∨ (k ≠ "" ∧ foldTagKey k ≠ "" ∧ s ≠ ""
      ∧ (first_match (foldTagKey k)
           (declared_registrations t (Object_keys t)) = Some k
         ∨ ((first_match (foldTagKey k)
               (declared_registrations t (Object_keys t)) = None
             ∨ first_match (foldTagKey k)
                 (declared_registrations t (Object_keys t)) = Some "")
            ∧ (foldTagKey k ∉ foldTagKey <$> after))))) →
  foldTagKey s = foldTagKey k →
  (normalizeTag p h (VStr s) st).1 = k.
Proof.
  intros Hreach Htable Hkeys Hk Hsk.
  pose proof (reachable_inv p st Hreach) as Hinv.
  destruct Hk as [[-> Hfold] | (Hne & Hfold & Hs & Hmatch)].
  - rewrite normalizeTag_spec. cbn [fst]. unfold normalizeTag_described.
    case_decide; [done|].
    rewrite maybeLoadTagTable_loaded by (by rewrite Htable).
    destruct Hinv as [Hinv _]. rewrite Htable in Hinv.
    destruct Hinv as (_ & (maps & _ & Ha & Hc) & _).
    unfold available_indexes. rewrite Ha, Hc.
    rewrite decide_True by congruence. done.
  - rewrite (normalizeTag_loaded p h s st t) by (done || congruence).
    rewrite Hsk, alias_registrations_declared.
    destruct Hmatch as [-> | [Halias Hlast]].
    { cbn [or_else]. by rewrite decide_False. }
    assert (last_folded (foldTagKey k) (Object_keys t) = Some k) as ->.
    { rewrite Hkeys. by apply last_folded_last. }
    destruct Halias as [-> | ->]; cbn [or_else].
    + by rewrite decide_False.
    + rewrite decide_True by done. by rewrite decide_False.
Qed.

(** C8, as amended: in a state of a run that holds a table, let [s] be a
    string that folds neither to the fold of a canonical key nor to the fold
    of an alias.  Then [translateTag] returns [s] for every [lang], and
    [normalizeTag] returns [s] unless [s] is non-empty and folds to the empty
    string, in which case it returns the empty string. *)
Theorem unmatched_tag_is_returned p h (st : state) (t : object)
    (s : string) (lang : value) :
  reachable p st → tagTable st = Some t →
  matches_canonical t s = false → matches_alias t s = false →
  (translateTag p h (VStr s) lang st).1 = Some s
  ∧ (normalizeTag p h (VStr s) st).1
    = if decide (s ≠ "" ∧ foldTagKey s = "") then "" else s.
Proof.
  intros Hreach Htable Hcanonical Halias.
  pose proof (reachable_inv p st Hreach) as Hinv.
  apply bool_decide_eq_false in Hcanonical, Halias.
  assert (NoDup t.*1) as Hnd.
  { destruct Hinv as [Hinv _]. rewrite Htable in Hinv. by destruct Hinv as ((? & _) & _). }
  assert ((normalizeTag p h (VStr s) st).1
          = if decide (s ≠ "" ∧ foldTagKey s = "") then "" else s) as Hnormalize.
  { destruct (decide (s = "")) as [->|Hs].
    { rewrite decide_False by (by intros [? _]). done. }
    destruct (decide (foldTagKey s = "")) as [Hfold|Hfold].
    { rewrite decide_True by done. rewrite normalizeTag_spec. simpl.
      rewrite decide_False by done.
      destruct (available_indexes _) as [[a c]|] eqn:Hidx.
      - by rewrite decide_True.
      - exfalso. destruct Hinv as [Hinv _]. rewrite Htable in Hinv.
        destruct Hinv as (_ & (maps & _ & Ha & Hc) & _).
        unfold available_indexes in Hidx.
        rewrite maybeLoadTagTable_loaded in Hidx by (by rewrite Htable).
        by rewrite Ha, Hc in Hidx. }
    rewrite decide_False by (by intros [_ ?]).
    rewrite (normalizeTag_loaded p h s st t) by done.
    destruct (first_match _ _) as [c|] eqn:Hfirst.
    { exfalso. apply Halias.
      apply first_match_Some, elem_of_alias_registrations in Hfirst
        as (_ & entry & a & Hin & Ha & Hf); [|done].
      rewrite <- Hf. apply list_elem_of_fmap. exists a. split; [done|].
      apply list_elem_of_bind. by exists (c, entry). }
    destruct (last_folded _ _) as [k|] eqn:Hlast; [|done].
    exfalso. apply Hcanonical.
    apply last_folded_Some in Hlast as [Hin <-].
    apply list_elem_of_fmap. exists k. by rewrite <- elem_of_Object_keys. }
  split; [|done].
  rewrite translateTag_spec. cbv zeta. cbn [fst]. f_equal.
  rewrite maybeLoadTagTable_loaded by (by rewrite Htable).
  rewrite Hnormalize, Htable. unfold translateTag_described.
  destruct (decide (s = "")) as [->|Hs]; [done|]. unfold entry_for_nonempty.
  destruct (decide (s ≠ "" ∧ foldTagKey s = "")) as [Hfold|Hfold].
  - by rewrite decide_True.
  - rewrite decide_False by done.
    destruct (GetOwnProperty t s) as [entry|] eqn:Hown; [|done].
    exfalso. apply Hcanonical.
    apply list_elem_of_fmap. exists s. split; [done|].
    apply GetOwnProperty_Some_elem in Hown.
    apply list_elem_of_fmap. by exists (s, entry).
Qed.

(** C9, as amended: the table and the two indexes are absent together and
    present together; they start absent and are populated by a load attempt.
    - A load is attempted when the module is evaluated, by every call of
      [getAllTags], and by every call of [normalizeTag] or [translateTag]
      whose tag is a non-empty string; a call with any other tag attempts
      nothing and leaves the state as it is.
    - Under CommonJS an attempt made while the table is absent installs the
      table and its indexes when [require] yields a candidate that the
      validation accepts, and changes nothing when [require] throws or the
      candidate is rejected.
    - In a browser an attempt made while the table is absent installs
      nothing: it starts the fetch if none was started and [fetch] is a
      function.  A fetch is pending only while the table is absent; when it
      settles, the promise is settled for good and the table and its indexes
      are installed if the body is a candidate that the validation accepts,
      and stay absent otherwise.
    - Once a state of a run holds a table, every further load attempt is a
      no-op and no sequence of query calls and fetch completions changes the
      state, so the table and the indexes are never replaced or torn
      down. *)
Theorem loaded_state_is_final p (st st' : state) (evs : list event) :
  reachable p st → run p evs st = Some st' →
  (tagTable st = None →
   aliasToCanonical st = None ∧ foldedCanonicalToCanonical st = None)
  ∧ (tagTable initial_state = None
     ∧ ∀ h, module_init p h = maybeLoadTagTable p h initial_state)
  ∧ (∀ st0 h tag lang,
       (getAllTags p h lang st0).2 = maybeLoadTagTable p h st0
       ∧ (normalizeTag p h tag st0).2
         = (if is_tag tag then maybeLoadTagTable p h st0 else st0)
       ∧ (translateTag p h tag lang st0).2
         = (if is_tag tag then maybeLoadTagTable p h st0 else st0))
  ∧ (∀ st0 h,
       tagTable st0 = None → wf_host h = true →
       match required h with
       | None => maybeLoadTagTable CommonJS h st0 = st0
       | Some v =>
           if policy_rejects v then maybeLoadTagTable CommonJS h st0 = st0
           else ∃ t, v = VObj t
                     ∧ installed t st0 (maybeLoadTagTable CommonJS h st0)
       end)
  ∧ (∀ st0 h,
       tagTable st0 = None →
       tagTable (maybeLoadTagTable Browser h st0) = None
       ∧ aliasToCanonical (maybeLoadTagTable Browser h st0)
         = aliasToCanonical st0
       ∧ foldedCanonicalToCanonical (maybeLoadTagTable Browser h st0)
         = foldedCanonicalToCanonical st0
       ∧ browserLoadPromise (maybeLoadTagTable Browser h st0)
         = match browserLoadPromise st0 with
           | Some pr => Some pr
           | None => if fetch_is_function h then Some Pending else None
           end)
  ∧ (browserLoadPromise st = Some Pending → p = Browser ∧ tagTable st = None)
  ∧ (∀ st0 outcome,
       tagTable st0 = None → wf_outcome outcome = true →
       browserLoadPromise (fetch_settled outcome st0) = Some Settled
       ∧ match outcome with
         | None => tagTable (fetch_settled outcome st0) = None
         | Some v =>
             if policy_rejects v
             then tagTable (fetch_settled outcome st0) = None
             else ∃ t, v = VObj t
                       ∧ tagTable (fetch_settled outcome st0) = Some t
                       ∧ indexes_of t (fetch_settled outcome st0)
         end)
  ∧ (∀ t, tagTable st = Some t →
       indexes_of t st
       ∧ (∀ h, maybeLoadTagTable p h st = st)
       ∧ st' = st).
Proof.
  intros Hreach Hrun. pose proof (reachable_inv p st Hreach) as [Hinv Hnode].
  split; [|split; [|split; [|split; [|split; [|split; [|split]]]]]].
  - intros Htable. by rewrite Htable in Hinv.
  - done.
  - intros st0 h tag lang. split; [apply getAllTags_state|].
    rewrite normalizeTag_spec, translateTag_spec. done.
  - intros st0 h Htable Hwf. unfold maybeLoadTagTable. rewrite Htable.
    unfold wf_host in Hwf. destruct (required h) as [v|]; [|done].
    destruct (policy_rejects v) eqn:Hpolicy.
    + by apply setTagTable_rejects.
    + destruct (setTagTable_accepts v st0 Hwf Hpolicy) as (t & -> & _ & Hinst).
      by exists t.
  - intros st0 h Htable. unfold maybeLoadTagTable. rewrite Htable.
    destruct (browserLoadPromise st0) as [pr|] eqn:Hpromise.
    { by rewrite Htable, Hpromise. }
    destruct (fetch_is_function h); simpl; [done|].
    by rewrite Htable, Hpromise.
  - intros Hpending. destruct p; [by rewrite Hnode in Hpending|].
    split; [done|]. destruct (tagTable st); [|done].
    by destruct Hinv as (_ & _ & Hne).
  - intros st0 outcome Htable Hwf. split; [done|].
    unfold fetch_settled. destruct outcome as [v|]; [|done].
    simpl in Hwf. destruct (policy_rejects v) eqn:Hpolicy.
    + destruct (truthy v); [|done]. simpl.
      by rewrite (setTagTable_rejects v st0).
    + destruct (setTagTable_accepts v st0 Hwf Hpolicy)
        as (t & -> & _ & Ht & (maps & Hloop & Ha & Hc) & _).
      exists t. split; [done|]. simpl. split; [done|]. by exists maps.
  - intros t Htable. rewrite Htable in Hinv. destruct Hinv as (_ & Hidx & Hpending).
    assert (∀ h, maybeLoadTagTable p h st = st) as Hnoop.
    { intros h. apply maybeLoadTagTable_loaded. by rewrite Htable. }
    split; [done|]. split; [done|].
    revert Hrun. induction evs as [|ev evs IH]; simpl; [by intros [= <-]|].
    assert (step p ev st = Some st ∨ step p ev st = None) as [-> | ->];
      [|done..].
    destruct ev as [h tag|h tag lang|h lang|outcome]; simpl.
    + destruct (wf_host h); [left | by right]. f_equal.
      destruct (normalizeTag_state p h tag st) as [-> | ->]; [done | apply Hnoop].
    + destruct (wf_host h); [left | by right]. f_equal.
      destruct (translateTag_state p h tag lang st) as [-> | ->];
        [done | apply Hnoop].
    + destruct (wf_host h); [left | by right]. f_equal.
      rewrite getAllTags_state. apply Hnoop.
    + right. by destruct (browserLoadPromise st) as [[|]|].
Qed.

End Resolution.

(** ** The sample tables at work

    Everything below is evaluated with the 7-bit instance of the string
    operations, on strings of 7-bit characters in every position that is
    trimmed or lower-cased. *)

Section Samples.

Local Existing Instance Ascii7.ops.

Import Examples.

Lemma node_reachable (t : object) :
  wf_value (VObj t) = true → reachable CommonJS (module_init CommonJS (node t)).
Proof. intros Hwf. by exists (node t), []. Qed.

(** The example of the specification. *)
Example cat_table_queries :
  let h := node cat_table in
  let st := module_init CommonJS h in
  (normalizeTag CommonJS h (VStr "CAT_A") st).1 = "cat-a"
  ∧ (normalizeTag CommonJS h (VStr " Cat A ") st).1 = "cat-a"
  ∧ (translateTag CommonJS h (VStr "cat-a") (VStr "zh") st).1 = Some "猫A"
  ∧ (translateTag CommonJS h (VStr "unknown-tag") VUndefined st).1
    = Some "unknown-tag"
  ∧ (getAllTags CommonJS h (VStr "en") st).1
    = Some (VArr [tag_record "cat-a" (VStr "Cat A")]).
Proof. vm_compute. done. Qed.

(** Before any successful load. *)
Example unloaded_queries :
  let h := {| required := None; fetch_is_function := false |} in
  let st := module_init CommonJS h in
  (translateTag CommonJS h (VStr "cat-a") VUndefined st).1 = Some "cat-a"
  ∧ (getAllTags CommonJS h VUndefined st).1 = Some (VArr []).
Proof. vm_compute. done. Qed.

(** In a browser the queries fall back while the fetch is in flight, and
    answer from the table once it has settled. *)
Example browser_queries :
  let st := module_init Browser browser in
  browserLoadPromise st = Some Pending
  ∧ (translateTag Browser browser (VStr "cat-a") (VStr "zh") st).1
    = Some "cat-a"
  ∧ (normalizeTag Browser browser (VStr "CAT_A") st).1 = "CAT_A"
  ∧ (getAllTags Browser browser VUndefined st).1 = Some (VArr [])
  ∧ ∃ st', step Browser (FetchSettles (Some (VObj cat_table))) st = Some st'
           ∧ (translateTag Browser browser (VStr "CAT_A") (VStr "zh") st').1
             = Some "猫A".
Proof.
  repeat (split; [by vm_compute|]).
  eexists. split; [reflexivity | by vm_compute].
Qed.

(** C1, refuted as stated: ["b"] is a canonical key of a loaded table, yet
    [normalizeTag] maps it to ["a"], which lists it as an alias. *)
Lemma normalizeTag_canonical_shadowed :
  let h := node shadowed_table in
  let st := module_init CommonJS h in
  reachable CommonJS st
  ∧ tagTable st = Some shadowed_table
  ∧ "b" ∈ shadowed_table.*1
  ∧ (normalizeTag CommonJS h (VStr "b") st).1 = "a"
  ∧ (normalizeTag CommonJS h (VStr "b") st).1 ≠ "b".
Proof.
  split; [by apply node_reachable|].
  split; [by vm_compute|].
  split; [apply list_elem_of_further, list_elem_of_here|].
  split; by vm_compute.
Qed.

Lemma normalizeTag_canonical_witness :
  let t := [("Cat", labels "Upper" "大"); ("cat", labels "Lower" "小")] in
  let h := node t in
  let st := module_init CommonJS h in
  tagTable st = Some t
  ∧ foldTagKey "Cat" = foldTagKey "cat"
  ∧ (normalizeTag CommonJS h (VStr "cat") st).1 = "cat"
  ∧ (normalizeTag CommonJS h (VStr " CAT ") st).1 = "cat".
Proof.
  assert (∀ s, s ≠ "" → foldTagKey s = foldTagKey "cat" →
            (normalizeTag CommonJS
               (node [("Cat", labels "Upper" "大"); ("cat", labels "Lower" "小")])
               (VStr s)
               (module_init CommonJS
                  (node [("Cat", labels "Upper" "大");
                         ("cat", labels "Lower" "小")]))).1 = "cat")
    as Hcat.
  { intros s Hs Hfold.
    apply (normalizeTag_canonical CommonJS _ _
             [("Cat", labels "Upper" "大"); ("cat", labels "Lower" "小")]
             ["Cat"] [] "cat" s).
    - by apply node_reachable.
    - by vm_compute.
    - by vm_compute.
    - right. split; [done|]. split; [by vm_compute|]. split; [done|].
      right. split; [left; by vm_compute | apply not_elem_of_nil].
    - done. }
  split; [by vm_compute|]. split; [by vm_compute|].
  split; apply Hcat; by vm_compute.
Defined.

(** C2, refuted as stated: the alias index of this table maps ["foo"] to the
    canonical key [""], which is what the description returns, and
    [normalizeTag] returns ["foo"]. *)
Lemma normalizeTag_empty_canonical :
  let h := node empty_key_table in
  let st := module_init CommonJS h in
  (normalizeTag CommonJS h (VStr "foo") st).1 = "foo"
  ∧ normalizeTag_described pick_match (VStr "foo")
      (available_indexes (maybeLoadTagTable CommonJS h st)) = "".
Proof. split; by vm_compute. Qed.

(** C3, refuted as stated: the tag ["  "] resolves to the canonical key [""],
    under which this table has an entry labelled ["E"], which is what the
    description returns, and [translateTag] returns the tag. *)
Lemma translateTag_empty_canonical :
  let h := node empty_key_table in
  let st := module_init CommonJS h in
  (translateTag CommonJS h (VStr "  ") (VStr "en") st).1 = Some "  "
  ∧ translateTag_described entry_for (VStr "  ") (VStr "en")
      (tagTable (maybeLoadTagTable CommonJS h st))
      (normalizeTag CommonJS h (VStr "  ") (maybeLoadTagTable CommonJS h st)).1
    = "E".
Proof. split; by vm_compute. Qed.

(** C4, refuted as stated: the key ["1"] was created after ["b"] and comes
    first in the result. *)
Lemma getAllTags_numbered :
  let h := node numbered_table in
  let st := module_init CommonJS h in
  tagTable st = Some numbered_table
  ∧ (getAllTags CommonJS h (VStr "en") st).1
    = Some (VArr [tag_record "1" (VStr "One"); tag_record "b" (VStr "B")])
  ∧ getAllTags_described insertion_order (VStr "en")
      (tagTable (maybeLoadTagTable CommonJS h st))
    = VArr [tag_record "b" (VStr "B"); tag_record "1" (VStr "One")].
Proof. split; [|split]; by vm_compute. Qed.

Lemma getAllTags_as_described_witness :
  let h := node cat_table in
  let st := module_init CommonJS h in
  wf_host h = true
  ∧ (getAllTags CommonJS h (VStr "zh") st).1
    = Some (VArr [tag_record "cat-a" (VStr "猫A")])
  ∧ ordered_properties cat_table = cat_table.
Proof.
  split; [by vm_compute|].
  destruct (getAllTags_as_described CommonJS (node cat_table) (VStr "zh")
              (module_init CommonJS (node cat_table)))
    as [Hresult Horder]; [by apply node_reachable | by vm_compute |].
  split; [rewrite Hresult; by vm_compute|].
  destruct (Horder cat_table) as (_ & _ & Hnamed & _); [by vm_compute|].
  apply Hnamed. by repeat constructor.
Defined.

(** C5, refuted as stated: this table passes the shape check and is
    installed, and the [en] and [zh] fields of its entry are empty. *)
Lemma blank_labels_are_installed :
  let st := module_init CommonJS (node blank_table) in
  reachable CommonJS st
  ∧ tagTable st = Some blank_table
  ∧ ("a", labels "" "") ∈ blank_table
  ∧ GetV (labels "" "") "en" = Some (VStr "")
  ∧ GetV (labels "" "") "zh" = Some (VStr "").
Proof.
  split; [by apply node_reachable|].
  split; [by vm_compute|].
  split; [apply list_elem_of_here | done].
Qed.

Lemma loaded_entries_have_string_labels_witness :
  let st := module_init CommonJS (node cat_table) in
  tagTable st = Some cat_table
  ∧ ∃ e en zh,
      entry "Cat A" "猫A" [VStr "CAT_A"; VStr " cat a "] = VObj e
      ∧ GetOwnProperty e "en" = Some (VStr en)
      ∧ GetOwnProperty e "zh" = Some (VStr zh).
Proof.
  split; [by vm_compute|].
  apply (loaded_entries_have_string_labels CommonJS
           (module_init CommonJS (node cat_table)) cat_table "cat-a").
  - by apply node_reachable.
  - by vm_compute.
  - apply list_elem_of_here.
Defined.

Lemma setTagTable_follows_policy_witness :
  wf_value (VObj cat_table) = true
  ∧ policy_rejects (VObj cat_table) = false
  ∧ ∃ t, VObj cat_table = VObj t
         ∧ installed t initial_state (setTagTable (VObj cat_table) initial_state).
Proof.
  split; [by vm_compute|]. split; [by vm_compute|].
  apply (setTagTable_follows_policy (VObj cat_table) initial_state);
    by vm_compute.
Defined.

(** A candidate with an entry that has no [zh] field is turned away. *)
Example setTagTable_rejects_missing_label :
  let v := VObj [("a", labels "A" "甲"); ("b", VObj [("en", VStr "B")])] in
  policy_rejects v = true ∧ setTagTable v initial_state = initial_state.
Proof. split; by vm_compute. Qed.

(** Two keys listing the same alias: the one enumerated first keeps it. *)
Example first_alias_wins :
  let t := [("x", entry "X" "X" [VNum (S754_zero false); VStr " "; VStr "Dup"]);
            ("y", entry "Y" "Y" [VStr "dup "])] in
  let h := node t in
  (normalizeTag CommonJS h (VStr "DUP") (module_init CommonJS h)).1 = "x".
Proof. by vm_compute. Qed.

(** C8, refuted as stated: a string of two spaces folds to no canonical key
    and to no alias of the table, and [normalizeTag] returns the empty
    string for it. *)
Lemma normalizeTag_blank_unmatched :
  let h := node cat_table in
  let st := module_init CommonJS h in
  reachable CommonJS st
  ∧ tagTable st = Some cat_table
  ∧ matches_canonical cat_table "  " = false
  ∧ matches_alias cat_table "  " = false
  ∧ (normalizeTag CommonJS h (VStr "  ") st).1 = ""
  ∧ (normalizeTag CommonJS h (VStr "  ") st).1 ≠ "  ".
Proof.
  split; [by apply node_reachable|].
  repeat split; by vm_compute.
Qed.

Lemma unmatched_tag_is_returned_witness :
  let h := node cat_table in
  let st := module_init CommonJS h in
  matches_canonical cat_table "unknown-tag" = false
  ∧ matches_alias cat_table "unknown-tag" = false
  ∧ (translateTag CommonJS h (VStr "unknown-tag") (VStr "zh") st).1
    = Some "unknown-tag"
  ∧ (normalizeTag CommonJS h (VStr "unknown-tag") st).1 = "unknown-tag".
Proof.
  split; [by vm_compute|]. split; [by vm_compute|].
  destruct (unmatched_tag_is_returned CommonJS (node cat_table)
              (module_init CommonJS (node cat_table)) cat_table "unknown-tag"
              (VStr "zh")) as [Htranslate Hnormalize].
  - by apply node_reachable.
  - by vm_compute.
  - by vm_compute.
  - by vm_compute.
  - split; [exact Htranslate | by rewrite Hnormalize].
Defined.

(** C9, refuted as stated: under CommonJS the table and both indexes are in
    place once the module is evaluated, before any query is made; in a
    browser they are put in place when the fetch settles, still without any
    query. *)
Lemma table_loaded_before_first_query :
  let st := module_init CommonJS (node cat_table) in
  tagTable st = Some cat_table
  ∧ is_Some (aliasToCanonical st)
  ∧ is_Some (foldedCanonicalToCanonical st)
  ∧ ∃ st', run Browser [FetchSettles (Some (VObj cat_table))]
             (module_init Browser browser) = Some st'
           ∧ tagTable st' = Some cat_table.
Proof.
  split; [by vm_compute|].
  split; [by vm_compute; eauto|]. split; [by vm_compute; eauto|].
  eexists. split; [reflexivity | by vm_compute].
Qed.

Lemma loaded_state_is_final_witness :
  let h := node cat_table in
  let late := node shadowed_table in
  let st := module_init CommonJS h in
  run CommonJS [CallGetAllTags late VUndefined; CallNormalizeTag late (VStr "b")]
    st = Some st
  ∧ tagTable st = Some cat_table
  ∧ maybeLoadTagTable CommonJS late st = st
  ∧ (normalizeTag CommonJS h VNull initial_state).2 = initial_state
  ∧ installed cat_table initial_state
      (maybeLoadTagTable CommonJS h initial_state).
Proof.
  assert (run CommonJS
            [CallGetAllTags (node shadowed_table) VUndefined;
             CallNormalizeTag (node shadowed_table) (VStr "b")]
            (module_init CommonJS (node cat_table))
          = Some (module_init CommonJS (node cat_table))) as Hrun.
  { by vm_compute. }
  split; [done|]. split; [by vm_compute|].
  destruct (loaded_state_is_final CommonJS _ _ _
              (node_reachable cat_table eq_refl) Hrun)
    as (_ & _ & Hcalls & Hrequire & _ & _ & _ & Hloaded).
  split; [|split].
  - destruct (Hloaded cat_table) as (_ & Hnoop & _); [by vm_compute|].
    apply Hnoop.
  - by destruct (Hcalls initial_state (node cat_table) VNull VNull)
      as (_ & -> & _).
  - destruct (Hrequire initial_state (node cat_table)) as (t & Ht & Hinst);
      [done | by vm_compute |].
    by injection Ht as <-.
Defined.

Lemma lang_other_than_zh_is_en_witness :
  let h := node cat_table in
  let st := module_init CommonJS h in
  VStr "ZH" ≠ VStr "zh"
  ∧ (translateTag CommonJS h (VStr "CAT_A") (VStr "ZH") st).1 = Some "Cat A"
  ∧ getAllTags CommonJS h (VStr "ZH") st = getAllTags CommonJS h (VStr "en") st
  ∧ is_Some (getAllTags CommonJS h (VStr "zh") st).1.
Proof.
  destruct (lang_other_than_zh_is_en CommonJS (node cat_table) (VStr "CAT_A")
              (VStr "ZH") (module_init CommonJS (node cat_table)))
    as [Htotal Hen]; [by apply node_reachable | by vm_compute |].
  destruct Hen as (_ & Hall & _ & _ & Htranslate); [done|].
  split; [done|]. split; [|split].
  - rewrite (Htranslate cat_table "CAT_A"
               [("en", VStr "Cat A"); ("zh", VStr "猫A");
                ("aliases", VArr [VStr "CAT_A"; VStr " cat a "])] "Cat A");
      try done; try by vm_compute.
    vm_compute. apply list_elem_of_here.
  - exact Hall.
  - apply Htotal.
Defined.

Lemma buildIndexes_first_alias_wins_witness :
  let t := [("x", entry "X" "X" [VNum (S754_zero false); VStr " "; VStr "Dup"]);
            ("y", entry "Y" "Y" [VStr "dup "])] in
  ∃ st' aliasMap,
    buildIndexes t initial_state = Some st'
    ∧ aliasToCanonical st' = Some aliasMap
    ∧ aliasMap !! "dup" = Some "x".
Proof.
  destruct (buildIndexes_first_alias_wins
              [("x", entry "X" "X"
                       [VNum (S754_zero false); VStr " "; VStr "Dup"]);
               ("y", entry "Y" "Y" [VStr "dup "])] initial_state)
    as (_ & _ & _ & _ & st' & aliasMap & Hbuild & Halias & _ & Hwins & _).
  exists st', aliasMap. split; [done|]. split; [done|].
  apply (Hwins [] "x" ["y"] [VNum (S754_zero false); VStr " "] "Dup" []).
  - by vm_compute.
  - by vm_compute.
  - by vm_compute.
  - intros k' a' Hk'. by apply elem_of_nil in Hk'.
  - intros a' Ha'. apply elem_of_cons in Ha' as [[=]|Ha'].
    apply list_elem_of_singleton in Ha' as [= ->]. by vm_compute.
Defined.

End Samples.

(** * Further properties of the module *)

(** ** Load attempts *)

Section Attempts.

Context `{StringOps}.

Lemma maybeLoadTagTable_outcomes p h (st : state) :
  tagTable (maybeLoadTagTable p h st) ≠ None
  ∨ maybeLoadTagTable p h st = st
  ∨ (p = Browser ∧ tagTable st = None
     ∧ maybeLoadTagTable p h st = set_browserLoadPromise Pending st).
Proof.
  unfold maybeLoadTagTable.
  destruct (tagTable st) eqn:Htable; [by right; left|].
  destruct p.
  - destruct (required h) as [v|]; [|by right; left].
    destruct (setTagTable_same_or_loaded v st) as [-> | Hne]; [by right; left|].
    by left.
  - destruct (browserLoadPromise st); [by right; left|].
    destruct (fetch_is_function h); simpl; [|by right; left].
    by right; right.
Qed.

Lemma maybeLoadTagTable_twice p h (st : state) :
  maybeLoadTagTable p h (maybeLoadTagTable p h st) = maybeLoadTagTable p h st.
Proof.
  destruct (maybeLoadTagTable_outcomes p h st)
    as [Hloaded | [Hsame | (-> & Htable & ->)]].
  - by apply maybeLoadTagTable_loaded.
  - by rewrite !Hsame.
  - unfold maybeLoadTagTable. simpl. by rewrite Htable.
Qed.

(** X5: a query made again with the same host answer returns what it
    returned the first time and leaves the state where the first call left
    it; the same holds for the load attempt on its own. *)
Theorem queries_repeat p h (tag lang : value) (st : state) :
  maybeLoadTagTable p h (maybeLoadTagTable p h st) = maybeLoadTagTable p h st
  ∧ normalizeTag p h tag (normalizeTag p h tag st).2 = normalizeTag p h tag st
  ∧ translateTag p h tag lang (translateTag p h tag lang st).2
    = translateTag p h tag lang st
  ∧ getAllTags p h lang (getAllTags p h lang st).2 = getAllTags p h lang st.
Proof.
  split; [apply maybeLoadTagTable_twice|]. split; [|split].
  - rewrite !normalizeTag_spec. cbn [snd].
    destruct (is_tag tag); [|done]. by rewrite !maybeLoadTagTable_twice.
  - rewrite !translateTag_spec. cbv zeta. cbn [snd].
    destruct (is_tag tag); [|done]. by rewrite !maybeLoadTagTable_twice.
  - rewrite (getAllTags_state p h lang st). unfold getAllTags.
    by rewrite !maybeLoadTagTable_twice.
Qed.

(** X6: in a browser, once a fetch has been started no load attempt does
    anything, so at most one fetch is ever made; and once that fetch has
    settled no sequence of queries and fetch completions changes the state,
    so a load that failed is never retried. *)
Theorem one_fetch_only (pr : promise) (st st' : state) (evs : list event) :
  browserLoadPromise st = Some pr →
  (∀ h, maybeLoadTagTable Browser h st = st)
  ∧ (pr = Settled → run Browser evs st = Some st' → st' = st).
Proof.
  intros Hpromise.
  assert (∀ h, maybeLoadTagTable Browser h st = st) as Hnoop.
  { intros h. unfold maybeLoadTagTable. rewrite Hpromise.
    by destruct (tagTable st). }
  split; [done|]. intros -> Hrun.
  revert Hrun. induction evs as [|ev evs IH]; simpl; [by intros [= <-]|].
  assert (step Browser ev st = Some st ∨ step Browser ev st = None)
    as [-> | ->]; [|done..].
  destruct ev as [h tag|h tag lang|h lang|outcome]; simpl.
  - destruct (wf_host h); [left | by right]. f_equal.
    destruct (normalizeTag_state Browser h tag st) as [-> | ->];
      [done | apply Hnoop].
  - destruct (wf_host h); [left | by right]. f_equal.
    destruct (translateTag_state Browser h tag lang st) as [-> | ->];
      [done | apply Hnoop].
  - destruct (wf_host h); [left | by right]. f_equal.
    rewrite getAllTags_state. apply Hnoop.
  - right. by rewrite Hpromise.
Qed.

(** X7: under CommonJS a load that has not succeeded yet is attempted again
    by the next query: when the table is absent and [require] yields a
    well-formed candidate that the validation accepts, [getAllTags] installs
    it and already answers from it, and so does [normalizeTag] for a
    non-empty string. *)
Theorem commonjs_loads_on_demand h (t : object) (lang : value) (s : string)
    (st : state) :
  tagTable st = None → required h = Some (VObj t) →
  wf_value (VObj t) = true → policy_rejects (VObj t) = false → s ≠ "" →
  getAllTags CommonJS h lang st
  = (Some (getAllTags_described ordered_properties lang (Some t)),
     setTagTable (VObj t) st)
  ∧ (normalizeTag CommonJS h (VStr s) st).2 = setTagTable (VObj t) st
  ∧ installed t st (setTagTable (VObj t) st).
Proof.
  intros Htable Hreq Hwf Hacc Hs.
  destruct (setTagTable_accepts (VObj t) st Hwf Hacc)
    as (t' & [= <-] & Hvalid & Hinst).
  assert (maybeLoadTagTable CommonJS h st = setTagTable (VObj t) st) as Hload.
  { unfold maybeLoadTagTable. by rewrite Htable, Hreq. }
  split; [|split; [|done]].
  - rewrite <- Hload. apply getAllTags_loaded; [done|].
    rewrite Hload. by destruct Hinst as [? _].
  - rewrite normalizeTag_spec. simpl.
    by rewrite bool_decide_eq_false_2.
Qed.

(** X13: under CommonJS no fetch is ever started; in a browser a table is
    only ever present once the fetch has settled. *)
Theorem table_source_by_platform p (st : state) :
  reachable p st →
  (p = CommonJS → browserLoadPromise st = None)
  ∧ (p = Browser → tagTable st ≠ None → browserLoadPromise st = Some Settled).
Proof.
  intros Hreach. split; [by destruct (reachable_inv p st Hreach)|].
  intros ->. destruct Hreach as (h0 & evs & _ & Hrun). revert Hrun.
  assert (∀ h st0,
            (tagTable st0 ≠ None → browserLoadPromise st0 = Some Settled) →
            tagTable (maybeLoadTagTable Browser h st0) ≠ None →
            browserLoadPromise (maybeLoadTagTable Browser h st0) = Some Settled)
    as Hload.
  { intros h st0 Hst0. unfold maybeLoadTagTable.
    destruct (tagTable st0) eqn:Htable; [by rewrite Htable|].
    destruct (browserLoadPromise st0); [by rewrite Htable|].
    destruct (fetch_is_function h); simpl; by rewrite Htable. }
  assert (tagTable (module_init Browser h0) ≠ None →
          browserLoadPromise (module_init Browser h0) = Some Settled) as Hinit.
  { by apply Hload. }
  revert Hinit. generalize (module_init Browser h0). intros st0 Hst0.
  revert st0 Hst0. induction evs as [|ev evs IH]; intros st0 Hst0; simpl.
  { by intros [= <-]. }
  destruct (step Browser ev st0) as [st1|] eqn:Hstep; [|done]. simpl.
  apply IH. revert Hstep.
  destruct ev as [h tag|h tag lang|h lang|outcome]; simpl.
  - destruct (wf_host h); [|done]. intros [= <-].
    destruct (normalizeTag_state Browser h tag st0) as [-> | ->];
      [done | by apply Hload].
  - destruct (wf_host h); [|done]. intros [= <-].
    destruct (translateTag_state Browser h tag lang st0) as [-> | ->];
      [done | by apply Hload].
  - destruct (wf_host h); [|done]. intros [= <-].
    rewrite getAllTags_state. by apply Hload.
  - destruct (browserLoadPromise st0) as [[|]|]; try done.
    destruct (wf_outcome outcome); [|done]. by intros [= <-].
Qed.

End Attempts.

(** ** What the queries answer *)

Section Answers.

Context `{StringOps}.

Lemma alias_registration_intro (t : object) k entry a :
  NoDup t.*1 → (k, entry) ∈ t → a ∈ alias_strings entry →
  foldTagKey a ≠ "" →
  (foldTagKey a, k) ∈ alias_registrations t (Object_keys t).
Proof.
  intros Hnd Hin Ha Hfold. unfold alias_registrations.
  apply list_elem_of_bind. exists k. split.
  - rewrite (Get_own t k entry) by done.
    apply elem_of_alias_keys. split; [done|]. split; [done|].
    exists a. by rewrite <- elem_of_alias_strings.
  - apply elem_of_Object_keys, list_elem_of_fmap. by exists (k, entry).
Qed.

Lemma state_inv_loaded p (st : state) (t : object) :
  state_inv p st → tagTable st = Some t →
  valid_table t
  ∧ ∃ a c,
      available_indexes st = Some (a, c)
      ∧ (∀ f, a !! f = first_match f (alias_registrations t (Object_keys t)))
      ∧ (∀ f, c !! f = last_folded f (Object_keys t)).
Proof.
  intros [Hinv _] Htable. rewrite Htable in Hinv.
  destruct Hinv as (Hvalid & Hidx & _). split; [done|].
  apply indexes_of_lookup in Hidx as (a & c & Ha & Hc & Hfirst & Hlast).
  exists a, c. unfold available_indexes. by rewrite Ha, Hc.
Qed.

Lemma state_inv_unloaded p (st : state) :
  state_inv p st → tagTable st = None → available_indexes st = None.
Proof.
  intros [Hinv _] Htable. rewrite Htable in Hinv. destruct Hinv as [Ha Hc].
  unfold available_indexes. by rewrite Ha.
Qed.

Lemma nonempty_Some (o : option string) k :
  nonempty o = Some k → o = Some k ∧ k ≠ "".
Proof. destruct o as [[|]|]; simpl; [done| |done]. by intros [= <-]. Qed.

(** X1: the loops of [buildIndexes] never throw and touch neither the table
    nor the promise; the fold index they produce holds, for the fold of
    every canonical key, the key enumerated last among those with that
    fold, and holds nothing else. *)
Theorem fold_index_last_key_wins (table : object) (st : state) :
  ∃ st' canonicalMap,
    buildIndexes table st = Some st'
    ∧ tagTable st' = tagTable st
    ∧ browserLoadPromise st' = browserLoadPromise st
    ∧ foldedCanonicalToCanonical st' = Some canonicalMap
    ∧ (∀ before k after,
         Object_keys table = (before ++ k :: after)%list →
         foldTagKey k ∉ foldTagKey <$> after →
         canonicalMap !! foldTagKey k = Some k)
    ∧ (∀ k, k ∈ table.*1 → is_Some (canonicalMap !! foldTagKey k))
    ∧ (∀ f k, canonicalMap !! f = Some k → k ∈ table.*1 ∧ foldTagKey k = f).
Proof.
  unfold buildIndexes.
  destruct (index_loop_lookup table (∅, ∅) (Object_keys table))
    as (maps & -> & _ & Hlast).
  simpl. exists (set_indexes maps.1 maps.2 st), maps.2.
  assert (∀ f, maps.2 !! f = last_folded f (Object_keys table)) as Hlookup.
  { intros f. rewrite Hlast. simpl. rewrite lookup_empty.
    by destruct (last_folded _ _). }
  do 4 (split; [done|]). split; [|split].
  - intros before k after Hkeys Hafter. rewrite Hlookup, Hkeys.
    by apply last_folded_last.
  - intros k Hk. rewrite Hlookup.
    destruct (last_folded _ _) as [k'|] eqn:Hnone; [by eexists|].
    apply last_folded_None in Hnone. exfalso. apply Hnone.
    apply list_elem_of_fmap. exists k. by rewrite elem_of_Object_keys.
  - intros f k. rewrite Hlookup. intros [Hin Hf]%last_folded_Some.
    by rewrite <- elem_of_Object_keys.
Qed.

(** X2: in a state of a run that holds a table, let [a] be a string alias
    with a non-empty fold, listed under the non-empty canonical key [k], and
    let every alias of the table with the same fold be listed under [k].
    Then [normalizeTag] maps every non-empty string whose fold is the fold
    of [a] to [k], whatever the canonical keys of the table are. *)
Theorem normalizeTag_alias p h (st : state) (t : object)
    (k a s : string) (entry : value) :
  reachable p st → tagTable st = Some t →
  (k, entry) ∈ t → a ∈ alias_strings entry →
  k ≠ "" → foldTagKey a ≠ "" →
  (∀ k' entry' a', (k', entry') ∈ t → a' ∈ alias_strings entry' →
                   foldTagKey a' = foldTagKey a → k' = k) →
  s ≠ "" → foldTagKey s = foldTagKey a →
  (normalizeTag p h (VStr s) st).1 = k.
Proof.
  intros Hreach Htable Hin Ha Hk Hfold Howner Hs Hsa.
  pose proof (reachable_inv p st Hreach) as Hinv.
  destruct (state_inv_loaded p st t Hinv Htable) as ((Hnd & _) & _).
  rewrite (normalizeTag_loaded p h s st t) by (done || congruence).
  rewrite Hsa.
  destruct (first_match (foldTagKey a) _) as [c|] eqn:Hfirst.
  - apply first_match_Some, elem_of_alias_registrations in Hfirst
      as (_ & entry' & a' & Hin' & Ha' & Hf); [|done].
    rewrite (Howner c entry' a') by done. simpl. by rewrite decide_False.
  - exfalso. apply first_match_None in Hfirst. apply Hfirst.
    apply list_elem_of_fmap. exists (foldTagKey a, k). split; [done|].
    by apply (alias_registration_intro t k entry a).
Qed.

(** X3: in every state of a run, what [normalizeTag] returns is the empty
    string, or its argument, or a canonical key of the loaded table. *)
Theorem normalizeTag_range p h (tag : value) (st : state) :
  reachable p st → wf_host h = true →
  (normalizeTag p h tag st).1 = ""
  ∨ tag = VStr (normalizeTag p h tag st).1
  ∨ ∃ t, tagTable (maybeLoadTagTable p h st) = Some t
         ∧ (normalizeTag p h tag st).1 ∈ t.*1.
Proof.
  intros Hreach Hwf.
  pose proof (maybeLoadTagTable_inv p h st Hwf (reachable_inv p st Hreach))
    as Hinv.
  rewrite normalizeTag_spec. cbn [fst]. unfold normalizeTag_described.
  destruct tag as [| | | |s| | |]; try by left.
  case_decide; [by left|].
  destruct (tagTable (maybeLoadTagTable p h st)) as [t|] eqn:Htable.
  - destruct (state_inv_loaded p _ t Hinv Htable)
      as ((Hnd & _) & a & c & -> & Hfirst & Hlast).
    case_decide; [by left|]. unfold pick_nonempty_match.
    destruct (nonempty (a !! foldTagKey s)) as [k|] eqn:Halias.
    { right; right. exists t. split; [done|].
      apply nonempty_Some in Halias as [Halias _]. rewrite Hfirst in Halias.
      apply first_match_Some, elem_of_alias_registrations in Halias
        as (_ & entry & a' & Hin & _); [|done].
      apply list_elem_of_fmap. by exists (k, entry). }
    destruct (nonempty (c !! foldTagKey s)) as [k|] eqn:Hcanonical.
    { right; right. exists t. split; [done|].
      apply nonempty_Some in Hcanonical as [Hcanonical _].
      rewrite Hlast in Hcanonical.
      apply last_folded_Some in Hcanonical as [Hin _].
      by rewrite <- elem_of_Object_keys. }
    by right; left.
  - rewrite (state_inv_unloaded p _ Hinv Htable). by right; left.
Qed.

(** X8: in every state of a run, when the load attempt of a query leaves the
    table absent, [normalizeTag] and [translateTag] return the string they
    were given, white space included, and [getAllTags] returns the empty
    array. *)
Theorem unloaded_queries_fall_back p h (s : string) (lang : value)
    (st : state) :
  reachable p st → wf_host h = true →
  tagTable (maybeLoadTagTable p h st) = None →
  (normalizeTag p h (VStr s) st).1 = s
  ∧ (translateTag p h (VStr s) lang st).1 = Some s
  ∧ (getAllTags p h lang st).1 = Some (VArr []).
Proof.
  intros Hreach Hwf Htable.
  pose proof (reachable_inv p st Hreach) as Hinv0.
  pose proof (maybeLoadTagTable_inv p h st Hwf Hinv0) as Hinv.
  split; [|split].
  - rewrite normalizeTag_spec. cbn [fst]. unfold normalizeTag_described.
    rewrite (state_inv_unloaded p _ Hinv Htable). by case_decide.
  - rewrite translateTag_spec. cbv zeta. cbn [fst].
    unfold translateTag_described. rewrite Htable.
    case_decide; [by subst|done].
  - rewrite getAllTags_spec by done. by rewrite Htable.
Qed.

Lemma matches_canonical_false (t : object) s :
  matches_canonical t s = false
  ↔ last_folded (foldTagKey s) (Object_keys t) = None.
Proof.
  unfold matches_canonical. rewrite bool_decide_eq_false. split.
  - intros Hnone.
    destruct (last_folded _ _) as [k|] eqn:Hlast; [|done].
    exfalso. apply Hnone. apply last_folded_Some in Hlast as [Hin <-].
    apply list_elem_of_fmap. exists k. by rewrite <- elem_of_Object_keys.
  - intros Hlast%last_folded_None Hin. apply Hlast.
    apply list_elem_of_fmap in Hin as (k & Hk & Hin).
    apply list_elem_of_fmap. exists k. by rewrite elem_of_Object_keys.
Qed.

Lemma matches_alias_false (t : object) s :
  NoDup t.*1 → foldTagKey s ≠ "" →
  matches_alias t s = false
  ↔ first_match (foldTagKey s) (alias_registrations t (Object_keys t)) = None.
Proof.
  intros Hnd Hfold. unfold matches_alias. rewrite bool_decide_eq_false.
  rewrite first_match_None. split.
  - intros Hnone ([f c] & Hf & Hin)%list_elem_of_fmap. simpl in Hf. subst f.
    apply elem_of_alias_registrations in Hin
      as (_ & entry & a & Hin & Ha & Hfa); [|done].
    apply Hnone. rewrite <- Hfa. apply list_elem_of_fmap.
    exists a. split; [done|]. apply list_elem_of_bind. by exists (c, entry).
  - intros Hnone Hin. apply Hnone.
    apply list_elem_of_fmap in Hin as (a & Hfa & Hin).
    apply list_elem_of_bind in Hin as ([k entry] & Ha & Hin).
    apply list_elem_of_fmap. exists (foldTagKey a, k).
    split; [done|]. apply (alias_registration_intro t k entry a); try done.
    by rewrite <- Hfa.
Qed.

(** X9: in a state of a run that holds a table with no empty canonical key,
    [normalizeTag] looks at a non-empty string through its fold only.  Of
    two non-empty strings with the same fold, both are mapped to the empty
    string when the fold is empty; both are mapped to one and the same
    canonical key when the fold is that of a canonical key or of an alias;
    and each is returned as it is when the fold is neither. *)
Theorem normalizeTag_fold_insensitive p h (s1 s2 : string) (st : state)
    (t : object) :
  reachable p st → tagTable st = Some t → "" ∉ t.*1 →
  s1 ≠ "" → s2 ≠ "" → foldTagKey s1 = foldTagKey s2 →
  if decide (foldTagKey s1 = "") then
    (normalizeTag p h (VStr s1) st).1 = ""
    ∧ (normalizeTag p h (VStr s2) st).1 = ""
  else if matches_canonical t s1 || matches_alias t s1 then
    (normalizeTag p h (VStr s1) st).1 = (normalizeTag p h (VStr s2) st).1
    ∧ (normalizeTag p h (VStr s1) st).1 ∈ t.*1
  else
    (normalizeTag p h (VStr s1) st).1 = s1
    ∧ (normalizeTag p h (VStr s2) st).1 = s2.
Proof.
  intros Hreach Htable Hempty Hs1 Hs2 Hfold.
  pose proof (reachable_inv p st Hreach) as Hinv.
  destruct (state_inv_loaded p st t Hinv Htable)
    as ((Hnd & _) & a & c & Hidx & _).
  case_decide as Hf.
  { rewrite !normalizeTag_spec. cbn [fst]. unfold normalizeTag_described.
    rewrite !decide_False by done.
    rewrite maybeLoadTagTable_loaded by (by rewrite Htable).
    rewrite Hidx. rewrite !decide_True by congruence. done. }
  rewrite (normalizeTag_loaded p h s1 st t) by done.
  rewrite (normalizeTag_loaded p h s2 st t) by (done || congruence).
  rewrite <- Hfold.
  destruct (first_match _ _) as [k|] eqn:Hfirst.
  - assert (matches_alias t s1 = true) as ->.
    { destruct (matches_alias t s1) eqn:Hm; [done|].
      apply matches_alias_false in Hm; [congruence | done..]. }
    rewrite orb_true_r.
    apply first_match_Some, elem_of_alias_registrations in Hfirst
      as (_ & entry & a' & Hin & _); [|done].
    assert (k ∈ t.*1) as Hk.
    { apply list_elem_of_fmap. by exists (k, entry). }
    cbn [or_else]. rewrite !decide_False by (by intros ->). by split.
  - assert (matches_alias t s1 = false) as ->.
    { by apply matches_alias_false. }
    rewrite orb_false_r.
    destruct (last_folded _ _) as [k|] eqn:Hlast.
    + assert (matches_canonical t s1 = true) as ->.
      { destruct (matches_canonical t s1) eqn:Hm; [done|].
        apply matches_canonical_false in Hm. congruence. }
      apply last_folded_Some in Hlast as [Hk _].
      rewrite elem_of_Object_keys in Hk.
      cbn [or_else]. rewrite !decide_False by (by intros ->). by split.
    + assert (matches_canonical t s1 = false) as ->.
      { by apply matches_canonical_false. }
      done.
Qed.

(** X14: in every state of a run, a non-empty string that folds to the empty
    string is returned as it is by [translateTag], while [normalizeTag]
    returns the empty string for it once a table is loaded, even when the
    table has a canonical key or an alias with an empty fold. *)
Theorem blank_tag p h (s : string) (lang : value) (st : state) :
  reachable p st → wf_host h = true → s ≠ "" → foldTagKey s = "" →
  (translateTag p h (VStr s) lang st).1 = Some s
  ∧ (tagTable (maybeLoadTagTable p h st) ≠ None →
     (normalizeTag p h (VStr s) st).1 = "").
Proof.
  intros Hreach Hwf Hs Hfold.
  pose proof (reachable_inv p st Hreach) as Hinv0.
  pose proof (maybeLoadTagTable_inv p h st Hwf Hinv0) as Hinv.
  assert (tagTable (maybeLoadTagTable p h st) ≠ None →
          (normalizeTag p h (VStr s) (maybeLoadTagTable p h st)).1 = "")
    as Hnormalize.
  { intros Htable. rewrite normalizeTag_spec. cbn [fst].
    rewrite maybeLoadTagTable_twice. unfold normalizeTag_described.
    rewrite decide_False by done.
    destruct (tagTable (maybeLoadTagTable p h st)) as [t|] eqn:Ht; [|done].
    destruct (state_inv_loaded p _ t Hinv Ht) as (_ & a & c & -> & _).
    by rewrite decide_True. }
  split.
  - rewrite translateTag_spec. cbv zeta. cbn [fst].
    unfold translateTag_described. rewrite decide_False by done.
    destruct (tagTable (maybeLoadTagTable p h st)) as [t|] eqn:Ht; [|done].
    rewrite Hnormalize by done. unfold entry_for_nonempty.
    by rewrite decide_True.
  - intros Htable. rewrite <- (Hnormalize Htable).
    rewrite !normalizeTag_spec. cbn [fst]. by rewrite maybeLoadTagTable_twice.
Qed.

End Answers.

(** ** Labels *)

Section Labels.

Context `{StringOps}.

Lemma GetInherited_not_string k s : GetInherited k ≠ VStr s.
Proof. unfold GetInherited. by repeat case_decide. Qed.

Lemma Get_string_own (e : object) k s :
  Get e k = VStr s ↔ GetOwnProperty e k = Some (VStr s).
Proof.
  unfold Get. destruct (GetOwnProperty e k) as [v|]; simpl.
  - split; [by intros -> | by intros [= ->]].
  - split; [|done]. intros Hs. by apply GetInherited_not_string in Hs.
Qed.

Lemma label_of_Some (entry : value) field label :
  label_of entry field = Some label →
  label ≠ ""
  ∧ ∃ e, entry = VObj e ∧ GetOwnProperty e field = Some (VStr label).
Proof.
  unfold label_of. destruct entry as [| | | | | |e|]; try done.
  destruct (Get e field) as [| | | |l| | |] eqn:Hget; try done.
  case_decide; [done|]. intros [= <-]. split; [done|].
  exists e. split; [done|]. by apply Get_string_own.
Qed.

Lemma entry_field_string (entry : value) (lang : value) :
  entry_shape_ok entry = true →
  ∃ label, entry_field entry (lang_field lang) = VStr label
           ∧ GetV entry (lang_field lang) = Some (VStr label).
Proof.
  intros (e & en & zh & -> & Hen & Hzh)%has_labels. simpl.
  destruct (lang_field_cases lang) as [-> | ->].
  - exists en. by apply Get_string_own in Hen as ->.
  - exists zh. by apply Get_string_own in Hzh as ->.
Qed.

(** X4: [translateTag] never throws; it returns the empty string exactly
    when its argument is not a non-empty string, and what it returns for a
    non-empty string is that string or else the [en] or [zh] field, as
    [lang] selects, of an entry of the loaded table. *)
Theorem translateTag_result p h (tag lang : value) (st : state) :
  ∃ r,
    (translateTag p h tag lang st).1 = Some r
    ∧ (r = "" ↔ is_tag tag = false)
    ∧ (tag = VStr r
       ∨ is_tag tag = false
       ∨ ∃ t k e,
           tagTable (maybeLoadTagTable p h st) = Some t
           ∧ (k, VObj e) ∈ t
           ∧ GetOwnProperty e (lang_field lang) = Some (VStr r)).
Proof.
  rewrite translateTag_spec. cbv zeta. cbn [fst].
  generalize (normalizeTag p h tag (maybeLoadTagTable p h st)).1.
  intros canonical. eexists. split; [done|].
  unfold translateTag_described, is_tag.
  destruct tag as [| | | |s| | |]; try (split; [done | by right; left]).
  case_decide as Hs.
  { rewrite bool_decide_eq_true_2 by done. split; [done | by right; left]. }
  rewrite bool_decide_eq_false_2 by done. cbn [negb].
  destruct (tagTable (maybeLoadTagTable p h st)) as [t|];
    [|split; [done | by left]].
  destruct (entry_for_nonempty t canonical) as [entry|] eqn:Hentry;
    [|split; [done | by left]].
  destruct (label_of entry (lang_field lang)) as [label|] eqn:Hlabel;
    cbn [default]; [|split; [done | by left]].
  apply label_of_Some in Hlabel as (Hne & e & -> & Hown).
  split; [done|]. right; right.
  unfold entry_for_nonempty in Hentry. case_decide; [done|].
  apply GetOwnProperty_Some_elem in Hentry. by exists t, canonical, e.
Qed.

(** X10: in every state of a run that holds a table after the load attempt,
    [getAllTags] returns as many records as the table has entries, one for
    each canonical key, and the label of every record is a string: the
    field of the entry under that key. *)
Theorem getAllTags_records p h (lang : value) (st : state) (t : object) :
  reachable p st → wf_host h = true →
  tagTable (maybeLoadTagTable p h st) = Some t →
  ∃ items,
    (getAllTags p h lang st).1 = Some (VArr items)
    ∧ length items = length t
    ∧ Forall (λ item, ∃ k entry label,
                item = tag_record k (VStr label)
                ∧ (k, entry) ∈ t
                ∧ GetV entry (lang_field lang) = Some (VStr label)) items
    ∧ (∀ k, k ∈ t.*1 → ∃ label, tag_record k (VStr label) ∈ items).
Proof.
  intros Hreach Hwf Htable.
  pose proof (maybeLoadTagTable_inv p h st Hwf (reachable_inv p st Hreach))
    as Hinv.
  destruct (state_inv_loaded p _ t Hinv Htable) as ((Hnd & _ & Hall) & _).
  rewrite Forall_forall in Hall.
  rewrite getAllTags_spec by (done || by apply reachable_inv).
  rewrite Htable. cbn [fst]. unfold getAllTags_described.
  eexists. split; [done|]. split; [|split].
  - by rewrite length_fmap, ordered_properties_Permutation.
  - apply Forall_fmap, Forall_forall. intros [k entry] Hin. simpl.
    rewrite elem_of_ordered_properties in Hin.
    destruct (entry_field_string entry lang (Hall (k, entry) Hin))
      as (label & -> & Hget).
    by exists k, entry, label.
  - intros k ([k' entry] & -> & Hin)%list_elem_of_fmap. simpl.
    destruct (entry_field_string entry lang (Hall (k', entry) Hin))
      as (label & Hfield & _).
    exists label. apply list_elem_of_fmap. exists (k', entry).
    split; [cbn [fst snd]; by rewrite Hfield|].
    by rewrite elem_of_ordered_properties.
Qed.

(** X11: in every state of a run, [getAllTags] returns the empty array
    exactly when its load attempt leaves the table absent: a loaded table
    always has an entry. *)
Theorem getAllTags_empty_iff_unloaded p h (lang : value) (st : state) :
  reachable p st → wf_host h = true →
  (getAllTags p h lang st).1 = Some (VArr [])
  ↔ tagTable (maybeLoadTagTable p h st) = None.
Proof.
  intros Hreach Hwf.
  pose proof (maybeLoadTagTable_inv p h st Hwf (reachable_inv p st Hreach))
    as Hinv.
  rewrite getAllTags_spec by (done || by apply reachable_inv). cbn [fst].
  destruct (tagTable (maybeLoadTagTable p h st)) as [t|] eqn:Htable; [|done].
  destruct (state_inv_loaded p _ t Hinv Htable) as ((_ & Hne & _) & _).
  split; [|done]. unfold getAllTags_described. intros [= Hnil].
  apply fmap_nil_inv in Hnil. exfalso. apply Hne.
  apply Permutation_nil_r. by rewrite <- Hnil, ordered_properties_Permutation.
Qed.

(** X12: in a state of a run that holds a table, if [getAllTags] lists the
    non-empty key [k] with a non-empty label and [normalizeTag] maps [k] to
    itself, then [translateTag] returns that label for [k]. *)
Theorem translateTag_agrees_with_getAllTags p h (lang : value) (st : state)
    (t : object) (items : list value) (k label : string) :
  reachable p st → wf_host h = true → tagTable st = Some t →
  (getAllTags p h lang st).1 = Some (VArr items) →
  tag_record k (VStr label) ∈ items →
  k ≠ "" → label ≠ "" →
  (normalizeTag p h (VStr k) st).1 = k →
  (translateTag p h (VStr k) lang st).1 = Some label.
Proof.
  intros Hreach Hwf Htable Hall Hitem Hk Hlabel Hnormalize.
  pose proof (reachable_inv p st Hreach) as Hinv.
  destruct (state_inv_loaded p st t Hinv Htable) as ((Hnd & _) & _).
  assert (maybeLoadTagTable p h st = st) as Hload.
  { apply maybeLoadTagTable_loaded. by rewrite Htable. }
  rewrite getAllTags_spec in Hall by done. cbn [fst] in Hall.
  rewrite Hload, Htable in Hall. injection Hall as <-.
  apply list_elem_of_fmap in Hitem as ([k' entry] & Hrecord & Hin).
  rewrite elem_of_ordered_properties in Hin.
  injection Hrecord as <- Hfield. simpl in Hfield.
  rewrite translateTag_spec. cbv zeta. cbn [fst].
  rewrite Hload, Hnormalize, Htable. unfold translateTag_described.
  rewrite decide_False by done. unfold entry_for_nonempty.
  rewrite decide_False by done.
  rewrite (GetOwnProperty_elem t k entry) by done.
  unfold label_of. destruct entry as [| | | | | |e|]; try done.
  simpl in Hfield. rewrite <- Hfield. by rewrite decide_False.
Qed.

End Labels.

(** ** The further properties on the sample tables *)

Section MoreSamples.

Local Existing Instance Ascii7.ops.

Import Examples.

Lemma normalizeTag_alias_witness :
  let h := node shadowed_table in
  let st := module_init CommonJS h in
  tagTable st = Some shadowed_table
  ∧ "b" ∈ alias_strings (entry "A" "甲" [VStr "b"])
  ∧ (normalizeTag CommonJS h (VStr " B ") st).1 = "a".
Proof.
  split; [by vm_compute|]. split; [by vm_compute; apply list_elem_of_here|].
  apply (normalizeTag_alias CommonJS (node shadowed_table)
           (module_init CommonJS (node shadowed_table)) shadowed_table
           "a" "b" " B " (entry "A" "甲" [VStr "b"])).
  - by apply node_reachable.
  - by vm_compute.
  - apply list_elem_of_here.
  - vm_compute. apply list_elem_of_here.
  - done.
  - by vm_compute.
  - intros k' entry' a' Hin Ha' _.
    apply elem_of_cons in Hin as [[= -> ->]|Hin]; [done|].
    apply list_elem_of_singleton in Hin as [= -> ->].
    vm_compute in Ha'. by apply elem_of_nil in Ha'.
  - done.
  - by vm_compute.
Defined.

Lemma normalizeTag_range_witness :
  let h := node cat_table in
  let st := module_init CommonJS h in
  wf_host h = true
  ∧ ((normalizeTag CommonJS h (VStr "CAT_A") st).1 = ""
     ∨ VStr "CAT_A" = VStr (normalizeTag CommonJS h (VStr "CAT_A") st).1
     ∨ ∃ t, tagTable (maybeLoadTagTable CommonJS h st) = Some t
            ∧ (normalizeTag CommonJS h (VStr "CAT_A") st).1 ∈ t.*1).
Proof.
  split; [by vm_compute|].
  apply (normalizeTag_range CommonJS (node cat_table) (VStr "CAT_A")
           (module_init CommonJS (node cat_table)));
    [by apply node_reachable | by vm_compute].
Defined.

Lemma one_fetch_only_witness :
  let st := fetch_settled None (module_init Browser browser) in
  browserLoadPromise st = Some Settled
  ∧ tagTable st = None
  ∧ maybeLoadTagTable Browser browser st = st
  ∧ run Browser [CallGetAllTags browser VUndefined;
                 CallTranslateTag browser (VStr "cat-a") VUndefined] st
    = Some st.
Proof.
  split; [by vm_compute|]. split; [by vm_compute|].
  destruct (one_fetch_only Settled
              (fetch_settled None (module_init Browser browser))
              (fetch_settled None (module_init Browser browser))
              [CallGetAllTags browser VUndefined;
               CallTranslateTag browser (VStr "cat-a") VUndefined])
    as [Hnoop _]; [by vm_compute|].
  split; [apply Hnoop | by vm_compute].
Defined.

Lemma commonjs_loads_on_demand_witness :
  let st := module_init CommonJS missing in
  let h := node cat_table in
  tagTable st = None
  ∧ policy_rejects (VObj cat_table) = false
  ∧ (getAllTags CommonJS h (VStr "en") st).1
    = Some (VArr [tag_record "cat-a" (VStr "Cat A")])
  ∧ tagTable (getAllTags CommonJS h (VStr "en") st).2 = Some cat_table.
Proof.
  split; [by vm_compute|]. split; [by vm_compute|].
  destruct (commonjs_loads_on_demand (node cat_table) cat_table (VStr "en")
              "x" (module_init CommonJS missing))
    as (Hall & _ & Htable & _);
    [by vm_compute | done | by vm_compute | by vm_compute | done |].
  rewrite Hall. split; [by vm_compute | exact Htable].
Defined.

Lemma table_source_by_platform_witness :
  let st := module_init CommonJS (node cat_table) in
  tagTable st = Some cat_table ∧ browserLoadPromise st = None.
Proof.
  split; [by vm_compute|].
  by apply (table_source_by_platform CommonJS
              (module_init CommonJS (node cat_table)));
    [apply node_reachable|].
Defined.

Lemma unloaded_queries_fall_back_witness :
  let st := module_init Browser browser in
  tagTable (maybeLoadTagTable Browser browser st) = None
  ∧ (normalizeTag Browser browser (VStr "  ") st).1 = "  "
  ∧ (translateTag Browser browser (VStr "  ") (VStr "zh") st).1 = Some "  "
  ∧ (getAllTags Browser browser (VStr "zh") st).1 = Some (VArr []).
Proof.
  split; [by vm_compute|].
  apply (unloaded_queries_fall_back Browser browser "  " (VStr "zh")
           (module_init Browser browser)).
  - by exists browser, [].
  - by vm_compute.
  - by vm_compute.
Defined.

Lemma normalizeTag_fold_insensitive_witness :
  let h := node cat_table in
  let st := module_init CommonJS h in
  foldTagKey "CAT_A" = foldTagKey " cat_a"
  ∧ matches_alias cat_table "CAT_A" = true
  ∧ (normalizeTag CommonJS h (VStr "CAT_A") st).1
    = (normalizeTag CommonJS h (VStr " cat_a") st).1
  ∧ (normalizeTag CommonJS h (VStr "CAT_A") st).1 ∈ cat_table.*1.
Proof.
  split; [by vm_compute|]. split; [by vm_compute|].
  pose proof (normalizeTag_fold_insensitive CommonJS (node cat_table)
                "CAT_A" " cat_a" (module_init CommonJS (node cat_table))
                cat_table) as Hsame.
  assert (foldTagKey "CAT_A" ≠ "") as Hfold by by vm_compute.
  assert (matches_canonical cat_table "CAT_A" || matches_alias cat_table "CAT_A"
          = true) as Hmatch by by vm_compute.
  rewrite decide_False, Hmatch in Hsame by done.
  apply Hsame.
  - by apply node_reachable.
  - by vm_compute.
  - intros Hin. by apply list_elem_of_singleton in Hin.
  - done.
  - done.
  - by vm_compute.
Defined.

Lemma blank_tag_witness :
  let h := node empty_key_table in
  let st := module_init CommonJS h in
  tagTable st = Some empty_key_table
  ∧ (translateTag CommonJS h (VStr "  ") (VStr "en") st).1 = Some "  "
  ∧ (normalizeTag CommonJS h (VStr "  ") st).1 = "".
Proof.
  split; [by vm_compute|].
  destruct (blank_tag CommonJS (node empty_key_table) "  " (VStr "en")
              (module_init CommonJS (node empty_key_table)))
    as [Htranslate Hnormalize];
    [by apply node_reachable | by vm_compute | done | by vm_compute |].
  split; [exact Htranslate|]. apply Hnormalize. by vm_compute.
Defined.

Lemma getAllTags_records_witness :
  let h := node numbered_table in
  let st := module_init CommonJS h in
  tagTable (maybeLoadTagTable CommonJS h st) = Some numbered_table
  ∧ ∃ items,
      (getAllTags CommonJS h (VStr "zh") st).1 = Some (VArr items)
      ∧ length items = 2.
Proof.
  split; [by vm_compute|].
  destruct (getAllTags_records CommonJS (node numbered_table) (VStr "zh")
              (module_init CommonJS (node numbered_table)) numbered_table)
    as (items & Hall & Hlength & _);
    [by apply node_reachable | by vm_compute | by vm_compute |].
  by exists items.
Defined.

Lemma getAllTags_empty_iff_unloaded_witness :
  let st := module_init CommonJS missing in
  (getAllTags CommonJS missing VUndefined st).1 = Some (VArr [])
  ∧ tagTable (maybeLoadTagTable CommonJS missing st) = None.
Proof.
  assert (tagTable (maybeLoadTagTable CommonJS missing
                      (module_init CommonJS missing)) = None) as Htable.
  { by vm_compute. }
  split; [|done].
  by apply (getAllTags_empty_iff_unloaded CommonJS missing VUndefined
              (module_init CommonJS missing));
    [exists missing, [] | vm_compute |].
Defined.

Lemma translateTag_agrees_with_getAllTags_witness :
  let h := node cat_table in
  let st := module_init CommonJS h in
  (getAllTags CommonJS h (VStr "zh") st).1
  = Some (VArr [tag_record "cat-a" (VStr "猫A")])
  ∧ (normalizeTag CommonJS h (VStr "cat-a") st).1 = "cat-a"
  ∧ (translateTag CommonJS h (VStr "cat-a") (VStr "zh") st).1 = Some "猫A".
Proof.
  split; [by vm_compute|]. split; [by vm_compute|].
  apply (translateTag_agrees_with_getAllTags CommonJS (node cat_table)
           (VStr "zh") (module_init CommonJS (node cat_table)) cat_table
           [tag_record "cat-a" (VStr "猫A")] "cat-a" "猫A").
  - by apply node_reachable.
  - by vm_compute.
  - by vm_compute.
  - by vm_compute.
  - apply list_elem_of_here.
  - done.
  - done.
  - by vm_compute.
Defined.

End MoreSamples.
